(** * C <-> OCaml interoperability stubs ([ocaml_utils_stubs.c])

    A shallow embedding of the helpers of [ocaml_utils_stubs.c] and the
    properties their callers rely on.

    Platform.  The model is the LP64 one on which the library is built:
    [int] and [unsigned int] are 32 bits wide, [size_t], pointers and the
    OCaml [value] word are 64 bits wide.  C integers are carried as [Z] and
    every conversion to a narrower type is written out with its wrap-around.

    Memory.  One address space holds the OCaml heap ([managed]), the blocks
    handed out by [malloc] ([native]) and the C [int] objects ([ints]).
    The C allocator is external: the addresses it is going to return are
    read from a script kept in the state, so that both a successful and a
    failing [malloc] can be run.  The collector is modelled as non-moving:
    root registration is recorded, but allocation never relocates a
    block. *)

From Stdlib Require Import ZArith List String Ascii Lia.
From Stdlib.Strings Require Import Byte.
From stdpp Require Import base numbers option list gmap strings.

Open Scope Z_scope.

(** ** C integer types *)

Definition wrap_unsigned (bits x : Z) : Z := x mod 2 ^ bits.

Definition wrap_signed (bits x : Z) : Z :=
  (x + 2 ^ (bits - 1)) mod 2 ^ bits - 2 ^ (bits - 1).

(** Conversion to [int], [unsigned int] and [size_t]. *)
Definition to_int : Z → Z := wrap_signed 32.
Definition to_uint : Z → Z := wrap_unsigned 32.
Definition to_size_t : Z → Z := wrap_unsigned 64.

Definition INT_MIN : Z := - 2 ^ 31.
Definition INT_MAX : Z := 2 ^ 31 - 1.
Definition UINT_MAX : Z := 2 ^ 32 - 1.

(** [sizeof(char* )] *)
Definition sizeof_ptr : Z := 8.

(** ** Values, blocks and memory *)

(** An OCaml [value] is a machine word: odd words are immediate integers,
    even words are pointers to a block of the OCaml heap. *)
Abbreviation value := Z (only parsing).

(** A C pointer. *)
Abbreviation ptr := Z (only parsing).
Definition NULL : ptr := 0.

(** A block of the OCaml heap: either a tagged tuple of fields or a string,
    whose tag is [String_tag]. *)
Inductive mblock : Type :=
  | Fields (tag : Z) (fs : list value)
  | Bytes (bs : list byte).

(** One byte of native memory: indeterminate (as [malloc] leaves it), a
    character, or the [k]-th byte of a stored pointer. *)
Inductive cell : Type :=
  | Undef
  | Data (b : byte)
  | PtrFrag (p : ptr) (k : nat).

Record mem : Type := Mem {
  managed : gmap Z mblock;          (* the OCaml heap *)
  native : gmap Z (list cell);      (* blocks obtained from malloc *)
  ints : gmap Z Z;                  (* C objects of type int, by address *)
  malloc_script : list ptr;         (* what the next calls of malloc return *)
  named : gmap string ptr;          (* caml_named_value: name -> value slot *)
  slots : Z → value;                (* the words of the registered slots *)
  local_roots : list (list value);  (* frames opened by Begin_roots *)
}.

Definition set_managed (h : gmap Z mblock) (m : mem) : mem :=
  Mem h (native m) (ints m) (malloc_script m) (named m) (slots m)
      (local_roots m).

Definition set_native (h : gmap Z (list cell)) (m : mem) : mem :=
  Mem (managed m) h (ints m) (malloc_script m) (named m) (slots m)
      (local_roots m).

Definition set_ints (h : gmap Z Z) (m : mem) : mem :=
  Mem (managed m) (native m) h (malloc_script m) (named m) (slots m)
      (local_roots m).

Definition set_malloc_script (l : list ptr) (m : mem) : mem :=
  Mem (managed m) (native m) (ints m) l (named m) (slots m) (local_roots m).

Definition set_local_roots (r : list (list value)) (m : mem) : mem :=
  Mem (managed m) (native m) (ints m) (malloc_script m) (named m) (slots m) r.

(** ** Outcomes and the monad of C code *)

(** An exception travelling through the OCaml runtime: [Failure msg] as
    raised by [caml_failwith], or an arbitrary exception bucket. *)
Inductive exn : Type :=
  | Failure (msg : string)
  | Exception (bucket : value).

(** Why a run stopped without returning or raising. *)
Inductive fault : Type :=
  | AssertionFailed
  | InvalidAccess.

Inductive outcome (S A : Type) : Type :=
  | Ret (a : A) (s : S)
  | Raise (e : exn) (s : S)
  | Abort (w : fault).

Arguments Ret {S A} a s.
Arguments Raise {S A} e s.
Arguments Abort {S A} w.

Definition M (S A : Type) : Type := S → outcome S A.

Definition ret {S A} (a : A) : M S A := λ s, Ret a s.

Definition bind {S A B} (c : M S A) (k : A → M S B) : M S B :=
  λ s, match c s with
       | Ret a s' => k a s'
       | Raise e s' => Raise e s'
       | Abort w => Abort w
       end.

Declare Scope c_scope.
Delimit Scope c_scope with C.
Notation "'let*' x := c 'in' k" := (bind c (λ x, k))
  (at level 10, x name, c at level 100, k at level 200) : c_scope.
Notation "c ;;; k" := (bind c (λ _, k))
  (at level 100, k at level 200, right associativity) : c_scope.
Open Scope c_scope.

Definition abort {S A} (w : fault) : M S A := λ _, Abort w.
Definition raise {S A} (e : exn) : M S A := λ s, Raise e s.
Definition test {S} (c : S → bool) : M S bool := λ s, Ret (c s) s.
Definition modify {S} (f : S → S) : M S unit := λ s, Ret tt (f s).

(** [assert(c)] of <assert.h>, with assertions compiled in. *)
Definition assert {S} (c : S → bool) : M S unit :=
  λ s, if c s then Ret tt s else Abort AssertionFailed.

(** Reading a location that may not exist. *)
Definition read {S A} (f : S → option A) : M S A :=
  λ s, match f s with Some a => Ret a s | None => Abort InvalidAccess end.

(** A statement that only makes sense under a condition: [if (c) stmt;]. *)
Definition when {S} (c : bool) (stmt : M S unit) : M S unit :=
  if c then stmt else ret tt.

(** A result is a normal return. *)
Definition returns {S A} (o : outcome S A) : Prop :=
  match o with Ret _ _ => True | _ => False end.

(** Two runs leave in the same abnormal way: the same exception from the
    same state, or the same fault.  The result types may differ. *)
Definition same_exit {S A B} (o1 : outcome S A) (o2 : outcome S B) : Prop :=
  match o1, o2 with
  | Raise e1 s1, Raise e2 s2 => e1 = e2 ∧ s1 = s2
  | Abort w1, Abort w2 => w1 = w2
  | _, _ => False
  end.

(** ** The OCaml runtime interface (<caml/mlvalues.h>, <caml/alloc.h>,
       <caml/fail.h>, <caml/callback.h>, <caml/memory.h>) *)

Definition String_tag : Z := 252.

Definition Is_long (v : value) : bool := Z.odd v.
Definition Is_block (v : value) : bool := Z.even v.
Definition Long_val (v : value) : Z := Z.shiftr v 1.
Definition Val_long (n : Z) : value := Z.shiftl n 1 + 1.
Definition Val_int : Z → value := Val_long.

(** The block a value points to, if it is a pointer into the heap. *)
Definition block_at (m : mem) (v : value) : option mblock :=
  if Is_block v then managed m !! v else None.

Definition tag_of (b : mblock) : Z :=
  match b with Fields t _ => t | Bytes _ => String_tag end.

(** Size in words.  A string of [n] bytes takes [n / 8 + 1] words: the
    bytes, then padding up to the word boundary. *)
Definition wosize_of (b : mblock) : Z :=
  match b with
  | Fields _ fs => Z.of_nat (length fs)
  | Bytes bs => Z.of_nat (length bs) / 8 + 1
  end.

Definition field_at (m : mem) (v : value) (i : Z) : option value :=
  match block_at m v with
  | Some (Fields _ fs) => if 0 <=? i then fs !! Z.to_nat i else None
  | _ => None
  end.

Definition string_at (m : mem) (v : value) : option (list byte) :=
  match block_at m v with
  | Some (Bytes bs) => Some bs
  | _ => None
  end.

Definition Wosize_val (v : value) : M mem Z :=
  read (λ m, wosize_of <$> block_at m v).

(** [Field(v, i)] as an rvalue. *)
Definition Field (v : value) (i : Z) : M mem value :=
  read (λ m, field_at m v i).

(** [Field(v, i) = x], a plain store into a block. *)
Definition assign_Field (v : value) (i : Z) (x : value) : M mem unit :=
  λ m, match block_at m v with
       | Some (Fields t fs) =>
           if (0 <=? i) && (i <? Z.of_nat (length fs)) then
             Ret tt (set_managed
                       (<[v := Fields t (<[Z.to_nat i := x]> fs)]> (managed m)) m)
           else Abort InvalidAccess
       | _ => Abort InvalidAccess
       end.

Definition caml_string_length (v : value) : M mem Z :=
  read (λ m, (λ bs, Z.of_nat (length bs)) <$> string_at m v).

(** The bytes found at [String_val(v)]: the characters, null padding up
    to the last byte of the last word, and in that byte the number of
    padding bytes before it.  The byte after the last character is
    therefore always null. *)
Definition pad_count (n : nat) : nat := 7 - n mod 8.

Definition pad_byte (k : nat) : byte :=
  match Byte.of_nat k with Some b => b | None => x00 end.

Definition string_image (bs : list byte) : list byte :=
  bs ++ replicate (pad_count (length bs)) x00
     ++ [pad_byte (pad_count (length bs))].

(** The address a fresh block of the OCaml heap gets: even, not null and
    in use neither in the OCaml heap nor in native memory. *)
Definition fresh_block (m : mem) : value :=
  2 * fresh (set_map (C := gset Z) (D := gset Z) (λ a, a `div` 2)
               ({[ 0 ]} ∪ dom (managed m) ∪ dom (native m))).

(** [caml_alloc_small(wosize, tag)]: a new block whose fields are not
    initialised yet (here: null words). *)
Definition caml_alloc_small (wosize tag : Z) : M mem value :=
  λ m, let v := fresh_block m in
       Ret v (set_managed
                (<[v := Fields tag (replicate (Z.to_nat wosize) 0)]> (managed m))
                m).

(** [Begin_roots3(a, b, c)] and [End_roots()]. *)
Definition Begin_roots3 (a b c : value) : M mem unit :=
  modify (λ m, set_local_roots ([a; b; c] :: local_roots m) m).

Definition End_roots : M mem unit :=
  modify (λ m, set_local_roots (tail (local_roots m)) m).

Definition caml_raise {A} (v : value) : M mem A := raise (Exception v).
Definition caml_raise_constant {A} (v : value) : M mem A := raise (Exception v).
Definition caml_failwith {A} (msg : string) : M mem A := raise (Failure msg).

(** [caml_named_value(n)]: the slot registered under [n], or [NULL]. *)
Definition caml_named_value (n : string) : M mem ptr :=
  λ m, Ret (default NULL (named m !! n)) m.

(** [*p] for [p] of type [value*], a pointer obtained from
    [caml_named_value]. *)
Definition load_value (p : ptr) : M mem value :=
  λ m, Ret (slots m p) m.

(** ** The C library (<stdlib.h>, <string.h>, <stdio.h>) *)

(** [malloc(size)]: takes the next address of the script.  A script that
    is used up, or that proposes the null pointer or an address already in
    use, makes the allocation fail.  The new block is [size] bytes of
    indeterminate content. *)
Definition malloc (size : Z) : M mem ptr :=
  λ m, match malloc_script m with
       | [] => Ret NULL m
       | p :: rest =>
           if bool_decide (p ≠ NULL ∧ native m !! p = None
                           ∧ managed m !! p = None)
           then Ret p (set_native
                         (<[p := replicate (Z.to_nat size) Undef]> (native m))
                         (set_malloc_script rest m))
           else Ret NULL (set_malloc_script rest m)
       end.

(** The [n] bytes found at a source address: inside an OCaml string or
    inside a native block. *)
Definition bytes_at (m : mem) (src : ptr) (n : Z) : option (list cell) :=
  let image :=
    match string_at m src with
    | Some bs => Some (Data <$> string_image bs)
    | None => native m !! src
    end in
  match image with
  | Some cs =>
      if (0 <=? n) && (n <=? Z.of_nat (length cs))
      then Some (take (Z.to_nat n) cs) else None
  | None => None
  end.

(** Overwrites the cells of block [dst] from byte offset [off] on. *)
Definition write_cells (dst : ptr) (off : Z) (cs : list cell) : M mem unit :=
  λ m, match native m !! dst with
       | Some old =>
           if (0 <=? off) && (off + Z.of_nat (length cs) <=? Z.of_nat (length old))
           then Ret tt (set_native
                          (<[dst := take (Z.to_nat off) old ++ cs
                                    ++ drop (Z.to_nat off + length cs) old]>
                             (native m)) m)
           else Abort InvalidAccess
       | None => Abort InvalidAccess
       end.

(** [memcpy(dst, src, n)] *)
Definition memcpy (dst src : ptr) (n : Z) : M mem unit :=
  let* cs := read (λ m, bytes_at m src n) in
  write_cells dst 0 cs.

(** [snprintf(buf, size, "%s" suffix, arg)]: the formatted text, cut to
    the [size - 1] characters that fit before the terminator. *)
Definition snprintf_s (size : nat) (arg suffix : string) : string :=
  String.substring 0 (size - 1) (arg +:+ suffix).

(** [*i = x] for [i] of type [int*]. *)
Definition store_int (i : ptr) (x : Z) : M mem unit :=
  modify (λ m, set_ints (<[i := x]> (ints m)) m).

(** The eight cells of a stored pointer, and [a[i] = p] for [a] of type
    [const char**]. *)
Definition ptr_cells (p : ptr) : list cell :=
  PtrFrag p <$> seq 0 (Z.to_nat sizeof_ptr).

Definition store_ptr (a : ptr) (i : Z) (p : ptr) : M mem unit :=
  write_cells a (sizeof_ptr * i) (ptr_cells p).

(** ** The macros of [ocaml_utils_macros.h] *)

(** Modelled from the spec: [Is_none] of ocaml_utils_macros.h, which is not
    among the sources.  The option encoding has a value for "none" that
    native code recognises before it extracts a payload; it is the
    immediate [Val_int(0)]. *)
Definition Is_none (v : value) : bool := Is_long v && (Long_val v =? 0).

(** Modelled from the spec: [Is_some] of ocaml_utils_macros.h.  "some(x)"
    is a block of tag 0 with the payload as its only field. *)
Definition Is_some (m : mem) (v : value) : bool :=
  match block_at m v with
  | Some b => (tag_of b =? 0) && (wosize_of b =? 1)
  | None => false
  end.

(** Modelled from the spec: [Is_string] of ocaml_utils_macros.h, "tagged as
    a string". *)
Definition Is_string (m : mem) (v : value) : bool :=
  match block_at m v with
  | Some b => tag_of b =? String_tag
  | None => false
  end.

(** Modelled from the spec: [Is_string_option] of ocaml_utils_macros.h,
    "tagged as a string option". *)
Definition Is_string_option (m : mem) (v : value) : bool :=
  Is_none v
  || (Is_some m v
      && match field_at m v 0 with Some x => Is_string m x | None => false end).

(** Modelled from the spec: [Is_int_option] of ocaml_utils_macros.h,
    "tagged as an integer option". *)
Definition Is_int_option (m : mem) (v : value) : bool :=
  Is_none v
  || (Is_some m v
      && match field_at m v 0 with Some x => Is_long x | None => false end).

(** ** The functions of [ocaml_utils_stubs.c] *)

(** *** Exceptions *)

Definition raise_with_two_args (tag arg1 arg2 : value) : M mem unit :=
  Begin_roots3 tag arg1 arg2 ;;;
  let* v_exc := caml_alloc_small 3 0 in
  assign_Field v_exc 0 tag ;;;
  assign_Field v_exc 1 arg1 ;;;
  assign_Field v_exc 2 arg2 ;;;
  End_roots ;;;
  caml_raise v_exc.

Definition named_value_exn (n : string) : M mem ptr :=
  let* v := caml_named_value n in
  when (v =? NULL)
    (let msg := snprintf_s 256 n " not registered." in
     caml_failwith msg) ;;;
  ret v.

Definition raise_out_of_memory : M mem unit :=
  let* out_of_memory := named_value_exn "Out_of_memory" in
  assert (λ _, negb (out_of_memory =? NULL)) ;;;
  let* exc := load_value out_of_memory in
  caml_raise_constant exc.

Definition malloc_exn (size : Z) : M mem ptr :=
  let* p := malloc size in
  when (p =? NULL) raise_out_of_memory ;;;
  ret p.

(** *** Strings and options *)

Definition string_ocaml_to_c (s_v : value) : M mem ptr :=
  assert (λ m, Is_string m s_v) ;;;
  let* len := caml_string_length s_v in
  let length := to_int len in
  let* s := malloc_exn (to_size_t (to_int (length + 1))) in
  memcpy s s_v (to_size_t (to_int (length + 1))) ;;;
  ret s.

Definition string_of_ocaml_string_option (v : value) : M mem ptr :=
  assert (λ m, Is_string_option m v) ;;;
  if Is_none v then ret NULL
  else
    let* s_v := Field v 0 in
    string_ocaml_to_c s_v.

Definition int_of_ocaml_int_option (v : value) (i : ptr) : M mem Z :=
  assert (λ m, Is_int_option m v) ;;;
  let* is_some := test (λ m, Is_some m v) in
  when is_some
    (let* x := Field v 0 in
     store_int i (to_int (Long_val x))) ;;;
  ret (if Is_none v then 0 else 1).

(** *** Array mapping *)

(** What [array_map] does that a caller can observe besides its result:
    the reads of the OCaml array, the calls through the function pointer
    with their returns, and the stores into the new array. *)
Inductive event : Type :=
  | EvRead (array : value) (i : Z) (v : value)
  | EvCall (arg : value)
  | EvReturn (r : ptr)
  | EvStore (a : ptr) (i : Z) (p : ptr).

(** Memory together with the record of these events.  The function behind
    the pointer runs on the memory alone. *)
Record state : Type := State {
  heap : mem;
  trace : list event;
}.

Definition lift {A} (c : M mem A) : M state A :=
  λ s, match c (heap s) with
       | Ret a m => Ret a (State m (trace s))
       | Raise e m => Raise e (State m (trace s))
       | Abort w => Abort w
       end.

Definition log (e : event) : M state unit :=
  modify (λ s, State (heap s) (trace s ++ [e])).

(** [f(v)] for a function pointer [f]. *)
Definition call (f : value → M mem ptr) (v : value) : M state ptr :=
  log (EvCall v) ;;;
  let* r := lift (f v) in
  log (EvReturn r) ;;;
  ret r.

(** [for (i = ...; i < length; i++) new_array[i] = f(Field(array, i));]
    with [count] the number of iterations still to run, [length - i]:
    the body changes neither [i] nor [length]. *)
Fixpoint array_map_loop (f : value → M mem ptr) (array : value)
    (new_array : ptr) (count : nat) (i : Z) : M state unit :=
  match count with
  | O => ret tt
  | S count' =>
      let* v := lift (Field array i) in
      log (EvRead array i v) ;;;
      let* r := call f v in
      lift (store_ptr new_array i r) ;;;
      log (EvStore new_array i r) ;;;
      array_map_loop f array new_array count' (to_uint (i + 1))
  end.

Definition array_map (array : value)
    (f__must_not_allocate_on_caml_heap : value → M mem ptr) : M state ptr :=
  let* wosize := lift (Wosize_val array) in
  let length := to_uint wosize in
  if length =? 0 then ret NULL
  else
    let* new_array := lift (malloc_exn (to_size_t (sizeof_ptr * length))) in
    array_map_loop f__must_not_allocate_on_caml_heap array new_array
      (Z.to_nat length) 0 ;;;
    ret new_array.

(** ** Auxiliary definitions for the statements *)

(** The message [named_value_exn] builds for a name. *)
Definition not_registered_msg (n : string) : string :=
  snprintf_s 256 n " not registered.".

(** What [raise_out_of_memory] raises: the registered exception, or the
    failure of the lookup. *)
Definition out_of_memory_exn (m : mem) : exn :=
  match named m !! "Out_of_memory"%string with
  | Some p => if p =? NULL then Failure (not_registered_msg "Out_of_memory")
              else Exception (slots m p)
  | None => Failure (not_registered_msg "Out_of_memory")
  end.

(** ** Representation of OCaml data in the heap *)

(** [v] is the OCaml [string option] [o] in memory [m]. *)
Inductive string_option_val (m : mem) (v : value) : option (list byte) → Prop :=
  | string_none :
      v = Val_int 0 → string_option_val m v None
  | string_some s_v bs :
      block_at m v = Some (Fields 0 [s_v]) →
      block_at m s_v = Some (Bytes bs) →
      string_option_val m v (Some bs).

(** [v] is the OCaml [int option] [o] in memory [m]. *)
Inductive int_option_val (m : mem) (v : value) : option Z → Prop :=
  | int_none :
      v = Val_int 0 → int_option_val m v None
  | int_some n :
      block_at m v = Some (Fields 0 [Val_long n]) →
      int_option_val m v (Some n).

(** [v] is an OCaml array with the elements [vs] in memory [m]. *)
Definition array_val (m : mem) (v : value) (vs : list value) : Prop :=
  ∃ t, block_at m v = Some (Fields t vs).

(** The cells of a native array of pointers. *)
Definition ptr_array_cells (ps : list ptr) : list cell := ps ≫= ptr_cells.

(** The events of the loop of [array_map] from index [i] on, for the
    elements and the pointers obtained for them. *)
Fixpoint loop_events (array : value) (new_array : ptr) (i : Z)
    (calls : list (value * ptr)) : list event :=
  match calls with
  | [] => []
  | (v, r) :: calls' =>
      [EvRead array i v; EvCall v; EvReturn r; EvStore new_array i r]
        ++ loop_events array new_array (i + 1) calls'
  end.

(** The arguments of the calls through the function pointer, in the order
    of the calls. *)
Fixpoint calls_of (t : list event) : list value :=
  match t with
  | [] => []
  | EvCall v :: t' => v :: calls_of t'
  | _ :: t' => calls_of t'
  end.

(** The indices at which the OCaml array is read, in the order of the
    reads. *)
Fixpoint indices_read (t : list event) : list Z :=
  match t with
  | [] => []
  | EvRead _ i _ :: t' => i :: indices_read t'
  | _ :: t' => indices_read t'
  end.

(** Every read of an element is followed at once by the call on the
    element read. *)
Definition read_then_call (t : list event) : Prop :=
  ∀ k a i v, t !! k = Some (EvRead a i v) → t !! S k = Some (EvCall v).

(** What a call of the function argument has to leave in place, for the
    statements that depend on it: nothing, or the OCaml array and the new
    native array. *)
Definition anything (m m' : mem) : Prop := True.

Definition leaves_arrays (array : value) (p : ptr) (m m' : mem) : Prop :=
  block_at m' array = block_at m array ∧ native m' !! p = native m !! p.

(** The turns of the loop of [array_map] in a run in which the calls
    return: from index [i] and memory [m], for each pair [(v, r)] in turn,
    [v] is what [Field(array, i)] holds, the call [f(v)] returns [r] and
    leaves in place what [keep] says, and the store [new_array[i] = r]
    gives the memory of the next turn.  The last memory is the one after
    the last store. *)
Inductive run_of_calls (f : value → M mem ptr) (array : value) (p : ptr)
    (keep : mem → mem → Prop) : Z → mem → list (value * ptr) → mem → Prop :=
  | run_done i m : run_of_calls f array p keep i m [] m
  | run_call i m v r m1 m2 calls m3 :
      field_at m array i = Some v →
      f v m = Ret r m1 →
      keep m m1 →
      store_ptr p i r m1 = Ret tt m2 →
      run_of_calls f array p keep (i + 1) m2 calls m3 →
      run_of_calls f array p keep i m ((v, r) :: calls) m3.

(** A memory with nothing in it, and a state around a memory. *)
Definition empty_mem : mem := Mem ∅ ∅ ∅ [] ∅ (λ _, 0) [].
Definition initial (m : mem) : state := State m [].

(** ** String comparison and views of native memory *)

(** The cells a pointer to characters gives access to: the image of an
    OCaml string, or a native block. *)
Definition cells_at (m : mem) (p : ptr) : option (list cell) :=
  match string_at m p with
  | Some bs => Some (Data <$> string_image bs)
  | None => native m !! p
  end.

(** The C string a run of cells starts with: the characters before the
    first null byte.  There is none when an indeterminate cell, a pointer
    cell or the end of the block comes first. *)
Fixpoint c_string (cs : list cell) : option (list byte) :=
  match cs with
  | Data b :: cs' =>
      if Byte.eqb b x00 then Some [] else cons b <$> c_string cs'
  | _ => None
  end.

Definition c_string_at (m : mem) (p : ptr) : option (list byte) :=
  cells_at m p ≫= c_string.

(** The characters of an OCaml string before its first null byte. *)
Fixpoint until_null (bs : list byte) : list byte :=
  match bs with
  | [] => []
  | b :: bs' => if Byte.eqb b x00 then [] else b :: until_null bs'
  end.

(** A character as [unsigned char]. *)
Definition uchar (b : byte) : Z := Z.of_N (Byte.to_N b).

(** The comparison [strcmp] makes: the difference of the first characters,
    taken as [unsigned char], at which the strings differ, the terminator
    counting as 0.  (The C standard fixes the sign of the result only.) *)
Fixpoint compare_bytes (a b : list byte) : Z :=
  match a, b with
  | [], [] => 0
  | [], y :: _ => 0 - uchar y
  | x :: _, [] => uchar x - 0
  | x :: a', y :: b' =>
      if Byte.eqb x y then compare_bytes a' b' else uchar x - uchar y
  end.

(** [strcmp(s1, s2)] of <string.h>. *)
Definition strcmp (s1 s2 : ptr) : M mem Z :=
  let* a := read (λ m, c_string_at m s1) in
  let* b := read (λ m, c_string_at m s2) in
  ret (compare_bytes a b).

Definition strcmp_not_a_macro (s1 s2 : ptr) : M mem Z :=
  strcmp s1 s2.

(** ** Frames *)

(** What a run guarantees about the state it ends in: [Q] after a return,
    [E] after a raise. *)
Definition ensures {S A} (c : M S A) (s : S) (Q : A → S → Prop)
    (E : exn → S → Prop) : Prop :=
  match c s with
  | Ret a s' => Q a s'
  | Raise e s' => E e s'
  | Abort _ => True
  end.

(** [m'] differs from [m] by new native blocks and by what the allocator
    has handed out, at most: the OCaml heap, the roots, the named values
    and the [int] objects are the same, and every native block of [m] is
    in [m'] with the same content. *)
Definition extends (m m' : mem) : Prop :=
  managed m' = managed m
  ∧ ints m' = ints m
  ∧ named m' = named m
  ∧ slots m' = slots m
  ∧ local_roots m' = local_roots m
  ∧ ∀ a cs, native m !! a = Some cs → native m' !! a = Some cs.

(** The addresses [ps] are ready to be handed out by [malloc]: they are
    pairwise distinct, not null and in use nowhere. *)
Definition available (m : mem) (ps : list ptr) : Prop :=
  NoDup ps
  ∧ Forall (λ p, p ≠ NULL ∧ native m !! p = None ∧ managed m !! p = None) ps.

(** [v] is an OCaml string with the bytes [bs], short enough for its
    length plus one to fit [int]. *)
Definition string_val (m : mem) (v : value) (bs : list byte) : Prop :=
  block_at m v = Some (Bytes bs) ∧ Z.of_nat (length bs) < INT_MAX.

(** The native copy of an OCaml string. *)
Definition c_copy (bs : list byte) : list cell := (Data <$> bs) ++ [Data x00].

(** Inputs used in the examples below. *)

(** A name of 256 characters. *)
Definition long_name : string :=
  string_of_list_ascii (repeat "a"%char 256).

(** [Some 2147483648], an integer option of a 64-bit OCaml program. *)
Definition mem_some_big : mem :=
  set_managed {[ 16 := Fields 0 [Val_long (2 ^ 31)] ]} empty_mem.

(** [Some "hi"], with an allocator about to hand out address 4096. *)
Definition mem_some_hi : mem :=
  set_malloc_script [4096]
    (set_managed {[ 16 := Fields 0 [32]; 32 := Bytes [x68; x69] ]} empty_mem).

(** The same option, with an allocator that has no memory left. *)
Definition mem_some_hi_exhausted : mem := set_malloc_script [] mem_some_hi.

(** The array [[|1; 2|]] (the immediates 3 and 5), with an allocator about
    to hand out address 4096, and with an allocator without memory. *)
Definition mem_array : mem :=
  set_malloc_script [4096]
    (set_managed {[ 16 := Fields 0 [3; 5] ]} empty_mem).

Definition mem_array_exhausted : mem := set_malloc_script [] mem_array.

(** The empty array. *)
Definition mem_empty_array : mem :=
  set_malloc_script [4096] (set_managed {[ 16 := Fields 0 [] ]} empty_mem).

(** A conversion function that allocates nothing: it returns the address
    of a static string picked by the value. *)
Definition static_name (v : value) : M mem ptr := ret (1000 + 8 * v).

(** A conversion function that allocates nothing but writes into the OCaml
    array at 16: it sets its second element to the immediate 7. *)
Definition rewriting (v : value) : M mem ptr :=
  assign_Field 16 1 7 ;;; static_name v.

(** A conversion function that raises on every value. *)
Definition failing (v : value) : M mem ptr := caml_failwith "no conversion".

(** A function that must not be called. *)
Definition unreachable (v : value) : M mem ptr := abort InvalidAccess.

(** A runtime in which the exception [Out_of_memory] is registered. *)
Definition mem_registered : mem :=
  Mem ∅ ∅ ∅ [] {[ "Out_of_memory"%string := 64 ]} (λ _, 42) [].

(** [Some 7]. *)
Definition mem_some_7 : mem :=
  set_managed {[ 16 := Fields 0 [Val_long 7] ]} empty_mem.

(** Two C strings in native memory, "hi" and "ho". *)
Definition mem_two_strings : mem :=
  set_native {[ 4096 := c_copy [x68; x69]; 8192 := c_copy [x68; x6f] ]}
    empty_mem.

(** [Some "hi"], with an allocator about to hand out 4096, then 8192. *)
Definition mem_some_hi_twice : mem := set_malloc_script [4096; 8192] mem_some_hi.

(** An array of the two strings "hi" and "ho", with an allocator about to
    hand out three addresses. *)
Definition mem_string_array : mem :=
  set_malloc_script [4096; 8192; 12288]
    (set_managed {[ 16 := Fields 0 [32; 48];
                    32 := Bytes [x68; x69];
                    48 := Bytes [x68; x6f] ]} empty_mem).

(** The number of elements [array_map] works on: the size of the array
    once stored in [unsigned int length]. *)
Definition converted_length (vs : list value) : nat :=
  Z.to_nat (to_uint (Z.of_nat (length vs))).

(** An array of 2^32 + 2 elements, and a memory that holds it, with an
    allocator about to hand out address 4096. *)
Definition huge_array : list value :=
  3 :: 5 :: replicate (Z.to_nat (2 ^ 32)) 7.

Definition mem_huge_array : mem :=
  set_malloc_script [4096] (set_managed {[ 16 := Fields 0 huge_array ]} empty_mem).


(** * Properties *)

Ltac run := unfold bind, ret, when, read, assert, test, modify, raise, abort.

(** ** C integer conversions *)

Lemma to_int_id x : INT_MIN ≤ x ≤ INT_MAX → to_int x = x.
Proof.
  unfold to_int, wrap_signed, INT_MIN, INT_MAX. intros H.
  rewrite Z.mod_small; lia.
Qed.

Lemma to_uint_id x : 0 ≤ x ≤ UINT_MAX → to_uint x = x.
Proof.
  unfold to_uint, wrap_unsigned, UINT_MAX. intros H.
  rewrite Z.mod_small; lia.
Qed.

Lemma to_size_t_id x : 0 ≤ x < 2 ^ 64 → to_size_t x = x.
Proof. intros H. unfold to_size_t, wrap_unsigned. rewrite Z.mod_small; lia. Qed.

(** ** Immediate values *)

Lemma Long_val_Val_long n : Long_val (Val_long n) = n.
Proof.
  unfold Long_val, Val_long.
  rewrite Z.shiftr_div_pow2, Z.shiftl_mul_pow2 by lia.
  change (2 ^ 1) with 2. rewrite Z.add_comm, Z.div_add by lia.
  reflexivity.
Qed.

Lemma Is_long_Val_long n : Is_long (Val_long n) = true.
Proof.
  unfold Is_long, Val_long. rewrite Z.shiftl_mul_pow2 by lia.
  change (2 ^ 1) with 2. rewrite Z.add_comm, Z.mul_comm, Z.odd_add_mul_2.
  reflexivity.
Qed.

Lemma Is_none_spec v : Is_none v = true ↔ v = Val_int 0.
Proof.
  unfold Is_none, Is_long, Long_val, Val_int. split.
  - intros [Hodd Hz]%andb_prop. apply Z.eqb_eq in Hz.
    apply Z.odd_spec in Hodd as [k ->].
    rewrite Z.shiftr_div_pow2 in Hz by lia. change (2 ^ 1) with 2 in Hz.
    rewrite Z.add_comm, Z.mul_comm, Z.div_add in Hz by lia.
    change (1 `div` 2) with 0 in Hz. rewrite Z.add_0_l in Hz. subst k.
    reflexivity.
  - intros ->. reflexivity.
Qed.

Lemma block_at_Is_block m v b : block_at m v = Some b → Is_block v = true.
Proof. unfold block_at. destruct (Is_block v); [done | discriminate]. Qed.

Lemma block_not_none m v b : block_at m v = Some b → Is_none v = false.
Proof.
  intros H%block_at_Is_block. unfold Is_none, Is_long, Is_block in *.
  rewrite <- Z.negb_even, H. reflexivity.
Qed.

(** ** Formatting *)

Lemma length_append (s1 s2 : string) :
  String.length (s1 +:+ s2) = (String.length s1 + String.length s2)%nat.
Proof. induction s1 as [|c s1 IH]; simpl; [reflexivity | by rewrite IH]. Qed.

Lemma substring_whole (s : string) (k : nat) :
  (String.length s ≤ k)%nat → substring 0 k s = s.
Proof.
  revert k. induction s as [|c s IH]; intros [|k] Hk; simpl in *;
    try reflexivity; try lia.
  rewrite IH by lia. reflexivity.
Qed.

Lemma length_substring_le (s : string) (k : nat) :
  (String.length (substring 0 k s) ≤ k)%nat.
Proof.
  revert k. induction s as [|c s IH]; intros [|k]; simpl; try lia.
  specialize (IH k). lia.
Qed.

(** A text that fits the buffer is not cut. *)
Lemma snprintf_s_fits (size : nat) (arg suffix : string) :
  (String.length arg + String.length suffix < size)%nat →
  snprintf_s size arg suffix = arg +:+ suffix.
Proof.
  intros H. unfold snprintf_s. apply substring_whole.
  rewrite length_append. lia.
Qed.

(** ** Named values and the out-of-memory exception *)

Lemma named_value_exn_eq n m :
  named_value_exn n m =
    match named m !! n with
    | Some p => if p =? NULL then Raise (Failure (not_registered_msg n)) m
                else Ret p m
    | None => Raise (Failure (not_registered_msg n)) m
    end.
Proof.
  unfold named_value_exn, caml_named_value, caml_failwith. run.
  destruct (named m !! n) as [p|]; simpl; [|reflexivity].
  destruct (p =? NULL); reflexivity.
Qed.

Lemma named_value_exn_ret n m p m' :
  named_value_exn n m = Ret p m' → p ≠ NULL ∧ named m !! n = Some p ∧ m' = m.
Proof.
  rewrite named_value_exn_eq.
  destruct (named m !! n) as [q|]; [|discriminate].
  destruct (q =? NULL) eqn:Hq; [discriminate|].
  intros [= -> ->]. apply Z.eqb_neq in Hq. done.
Qed.

Lemma raise_out_of_memory_eq m :
  raise_out_of_memory m = Raise (out_of_memory_exn m) m.
Proof.
  unfold raise_out_of_memory, out_of_memory_exn, bind.
  rewrite named_value_exn_eq.
  destruct (named m !! "Out_of_memory"%string) as [p|]; [|reflexivity].
  destruct (p =? NULL) eqn:Hp; [reflexivity|].
  unfold assert. rewrite Hp. reflexivity.
Qed.

(** ** Allocation *)

Lemma malloc_total size m : ∃ p m', malloc size m = Ret p m'.
Proof.
  unfold malloc. destruct (malloc_script m) as [|p rest]; [by eauto|].
  case_bool_decide; eauto.
Qed.

(** A successful [malloc] returns an address that was in use nowhere, and
    only adds the new block. *)
Lemma malloc_ret size m p m' :
  malloc size m = Ret p m' → p ≠ NULL →
  native m !! p = None ∧ managed m !! p = None
  ∧ m' = set_native (<[p := replicate (Z.to_nat size) Undef]> (native m))
           (set_malloc_script (tail (malloc_script m)) m).
Proof.
  unfold malloc. destruct (malloc_script m) as [|q rest]; [by intros [= <- _]|].
  case_bool_decide as Hq; intros [= <- <-]; [|done].
  intros _. destruct Hq as (_ & ? & ?). done.
Qed.

Lemma malloc_exn_eq size m :
  malloc_exn size m =
    match malloc size m with
    | Ret p m1 => if p =? NULL then Raise (out_of_memory_exn m1) m1
                  else Ret p m1
    | Raise e m1 => Raise e m1
    | Abort w => Abort w
    end.
Proof.
  unfold malloc_exn, bind. destruct (malloc size m) as [p m1| |]; try reflexivity.
  destruct (p =? NULL); simpl; [|reflexivity].
  rewrite raise_out_of_memory_eq. reflexivity.
Qed.

Lemma malloc_exn_ret size m p m' :
  malloc_exn size m = Ret p m' → p ≠ NULL ∧ malloc size m = Ret p m'.
Proof.
  rewrite malloc_exn_eq. destruct (malloc size m) as [q m1| |]; try discriminate.
  destruct (q =? NULL) eqn:Hq; [discriminate|].
  intros [= -> ->]. apply Z.eqb_neq in Hq. done.
Qed.

(** C3 (as amended).  For a name that is not registered, [named_value_exn]
    raises [Failure] from the unchanged memory, and the message is the
    text "<n> not registered." cut to the 255 characters that fit the
    256-byte buffer; for a name of at most 239 characters nothing is cut
    and the message is exactly "<n> not registered.". *)
Theorem named_value_exn_unregistered (n : string) (m : mem) :
  named m !! n = None →
  named_value_exn n m
    = Raise (Failure (substring 0 255 (n +:+ " not registered."))) m
  ∧ ((String.length n ≤ 239)%nat →
     substring 0 255 (n +:+ " not registered.") = n +:+ " not registered.").
Proof.
  intros Hn. split.
  - rewrite named_value_exn_eq, Hn. reflexivity.
  - intros Hlen. apply (snprintf_s_fits 256). simpl. lia.
Qed.

Lemma named_value_exn_unregistered_witness :
  named empty_mem !! "Out_of_memory"%string = None
  ∧ named_value_exn "Out_of_memory" empty_mem
    = Raise (Failure "Out_of_memory not registered.") empty_mem.
Proof.
  split; [reflexivity|].
  exact (proj1 (named_value_exn_unregistered "Out_of_memory" empty_mem eq_refl)).
Defined.

(** C3 (as stated) fails for a long name: with the 256-character name
    [long_name] the message is neither "<n> not registered." nor any text
    containing the name. *)
Lemma named_value_exn_long_name :
  named empty_mem !! long_name = None
  ∧ ∃ msg, named_value_exn long_name empty_mem = Raise (Failure msg) empty_mem
      ∧ msg ≠ long_name +:+ " not registered."
      ∧ ∀ pre post, msg ≠ pre +:+ long_name +:+ post.
Proof.
  split; [reflexivity|].
  exists (not_registered_msg long_name). split; [|split].
  - rewrite named_value_exn_eq. reflexivity.
  - intros H. apply (f_equal String.length) in H.
    vm_compute in H. discriminate.
  - intros pre post H. apply (f_equal String.length) in H.
    rewrite !length_append in H.
    assert (Hm : (String.length (not_registered_msg long_name) ≤ 255)%nat)
      by apply length_substring_le.
    assert (Hl : String.length long_name = 256%nat) by reflexivity.
    lia.
Qed.

(** C8.  A pointer that [named_value_exn] returns is not null, so the
    assertion that guards the dereference in [raise_out_of_memory] never
    fails. *)
Theorem named_value_exn_result_non_null (n : string) (m m' : mem) (p : ptr) :
  named_value_exn n m = Ret p m' →
  p ≠ NULL ∧ ∀ m0, raise_out_of_memory m0 ≠ Abort AssertionFailed.
Proof.
  intros H. split.
  - by apply named_value_exn_ret in H as (? & _).
  - intros m0. rewrite raise_out_of_memory_eq. discriminate.
Qed.

Lemma named_value_exn_result_non_null_witness :
  named_value_exn "Out_of_memory" mem_registered = Ret 64 mem_registered
  ∧ 64 ≠ NULL.
Proof.
  split; [reflexivity|].
  exact (proj1 (named_value_exn_result_non_null "Out_of_memory"
                  mem_registered mem_registered 64 eq_refl)).
Defined.

(** C4 (as amended).  [malloc_exn] returns the non-null pointer that
    [malloc] returned, which points to a block of the requested size, or,
    when [malloc] returned the null pointer, leaves through the raise of
    [raise_out_of_memory]: with the exception in the slot registered under
    "Out_of_memory" when there is one, with the failure "Out_of_memory
    not registered." when there is none.  No other outcome exists; a null
    pointer is never returned. *)
Theorem malloc_exn_never_null (size : Z) (m : mem) :
  match malloc_exn size m with
  | Ret p m' =>
      p ≠ NULL ∧ malloc size m = Ret p m'
      ∧ native m' !! p = Some (replicate (Z.to_nat size) Undef)
  | Raise e m' =>
      malloc size m = Ret NULL m'
      ∧ raise_out_of_memory m' = Raise e m'
      ∧ e = match named m' !! "Out_of_memory"%string with
            | Some q => if q =? NULL
                        then Failure "Out_of_memory not registered."
                        else Exception (slots m' q)
            | None => Failure "Out_of_memory not registered."
            end
  | Abort _ => False
  end.
Proof.
  destruct (malloc_exn size m) as [p m'|e m'|w] eqn:H.
  - apply malloc_exn_ret in H as [Hnull Hp]. repeat split; try assumption.
    destruct (malloc_ret _ _ _ _ Hp Hnull) as (_ & _ & ->).
    apply lookup_insert_eq.
  - rewrite malloc_exn_eq in H. destruct (malloc_total size m) as (q & m1 & Hq).
    rewrite Hq in *. destruct (q =? NULL) eqn:Hn; [|discriminate].
    apply Z.eqb_eq in Hn. subst q. injection H as <- <-.
    rewrite raise_out_of_memory_eq. done.
  - rewrite malloc_exn_eq in H. destruct (malloc_total size m) as (q & m1 & Hq).
    rewrite Hq in H. destruct (q =? NULL); discriminate.
Qed.

(** C4 (as stated) fails when the allocation fails in a runtime where no
    value is registered under "Out_of_memory": [malloc_exn] then leaves
    with the failure of [named_value_exn], not with the out-of-memory
    exception. *)
Lemma malloc_exn_unregistered :
  malloc 8 empty_mem = Ret NULL empty_mem
  ∧ named empty_mem !! "Out_of_memory"%string = None
  ∧ malloc_exn 8 empty_mem
    = Raise (Failure "Out_of_memory not registered.") empty_mem
  ∧ ∀ bucket,
      malloc_exn 8 empty_mem ≠ Raise (Exception bucket) empty_mem.
Proof.
  split; [reflexivity|]. split; [reflexivity|]. split; [reflexivity|].
  intros bucket. discriminate.
Qed.

(** ** Blocks of the OCaml heap *)

Lemma fresh_block_spec m :
  Is_block (fresh_block m) = true ∧ fresh_block m ≠ NULL
  ∧ managed m !! fresh_block m = None ∧ native m !! fresh_block m = None.
Proof.
  unfold fresh_block.
  set (X := {[ 0 ]} ∪ dom (managed m) ∪ dom (native m)).
  set (Y := set_map (C := gset Z) (D := gset Z) (λ a, a `div` 2) X).
  assert (Hfresh : ∀ a, a ∈ X → a ≠ 2 * fresh Y).
  { intros a Ha ->. apply (is_fresh Y). unfold Y.
    apply (elem_of_map_2_alt _ _ (2 * fresh Y)); [exact Ha|].
    rewrite Z.mul_comm, Z.div_mul by lia. reflexivity. }
  repeat split.
  - unfold Is_block. rewrite Z.even_mul. reflexivity.
  - intros H. apply (Hfresh 0); [set_solver | by rewrite H].
  - apply not_elem_of_dom. intros H.
    apply (Hfresh (2 * fresh Y)); [set_solver | reflexivity].
  - apply not_elem_of_dom. intros H.
    apply (Hfresh (2 * fresh Y)); [set_solver | reflexivity].
Qed.

Lemma block_at_managed m m' v :
  managed m' = managed m → block_at m' v = block_at m v.
Proof. intros H. unfold block_at. by rewrite H. Qed.

Lemma block_at_insert m v b :
  Is_block v = true →
  block_at (set_managed (<[v := b]> (managed m)) m) v = Some b.
Proof.
  intros Hv. unfold block_at. rewrite Hv. simpl. apply lookup_insert_eq.
Qed.

Lemma assign_Field_eq m v t fs i x :
  block_at m v = Some (Fields t fs) → 0 ≤ i < Z.of_nat (length fs) →
  assign_Field v i x m
    = Ret tt (set_managed
                (<[v := Fields t (<[Z.to_nat i := x]> fs)]> (managed m)) m).
Proof.
  intros Hb Hi. unfold assign_Field. rewrite Hb.
  destruct (0 <=? i) eqn:H0; [|lia].
  destruct (i <? Z.of_nat (length fs)) eqn:H1; [reflexivity|lia].
Qed.

(** C7.  [raise_with_two_args] never returns: it raises the exception
    whose bucket is a new block of the OCaml heap with tag 0 and the three
    fields [tag], [arg1], [arg2], in this order.  The block is at an
    address that was free, nothing else in memory changes, and the roots
    registered for the allocation are released again. *)
Theorem raise_with_two_args_diverts (tag arg1 arg2 : value) (m : mem) :
  ∃ v_exc,
    raise_with_two_args tag arg1 arg2 m
      = Raise (Exception v_exc)
          (set_managed (<[v_exc := Fields 0 [tag; arg1; arg2]]> (managed m)) m)
    ∧ Is_block v_exc = true
    ∧ managed m !! v_exc = None
    ∧ native m !! v_exc = None.
Proof.
  destruct (fresh_block_spec m) as (Hblock & _ & Hm & Hn).
  exists (fresh_block m). repeat split; try assumption.
  unfold raise_with_two_args, Begin_roots3, End_roots, caml_alloc_small,
    caml_raise. run.
  set (m0 := set_local_roots _ m).
  change (fresh_block m0) with (fresh_block m).
  set (v := fresh_block m) in *.
  erewrite assign_Field_eq;
    [| by apply block_at_insert | simpl; lia].
  erewrite assign_Field_eq;
    [| by apply block_at_insert | simpl; lia].
  erewrite assign_Field_eq;
    [| by apply block_at_insert | simpl; lia].
  simpl. rewrite !insert_insert_eq.
  destruct m; reflexivity.
Qed.

(** ** Options *)

Lemma field_at_0 m v t x fs :
  block_at m v = Some (Fields t (x :: fs)) → field_at m v 0 = Some x.
Proof. intros H. unfold field_at. rewrite H. reflexivity. Qed.

Lemma Is_some_singleton m v x :
  block_at m v = Some (Fields 0 [x]) → Is_some m v = true.
Proof. intros H. unfold Is_some. rewrite H. reflexivity. Qed.

Lemma Is_some_none m : Is_some m (Val_int 0) = false.
Proof. reflexivity. Qed.

Lemma int_option_val_valid m v o :
  int_option_val m v o → Is_int_option m v = true.
Proof.
  unfold Is_int_option. intros [->|n Hb]; [reflexivity|].
  rewrite (Is_some_singleton _ _ _ Hb), (field_at_0 _ _ _ _ _ Hb).
  rewrite Is_long_Val_long. apply orb_true_r.
Qed.

(** C2 (as amended).  For a valid integer option, [int_of_ocaml_int_option]
    returns 0 and changes nothing in memory when the option is none; when
    it is some(n) it returns 1 and its only effect is to store through [i]
    the value of [n] converted to [int], which is [n] itself whenever [n]
    lies between [INT_MIN] and [INT_MAX]. *)
Theorem int_of_ocaml_int_option_spec (m : mem) (v : value) (i : ptr)
    (o : option Z) :
  int_option_val m v o →
  match o with
  | None => int_of_ocaml_int_option v i m = Ret 0 m
  | Some n =>
      int_of_ocaml_int_option v i m
        = Ret 1 (set_ints (<[i := to_int n]> (ints m)) m)
      ∧ (INT_MIN ≤ n ≤ INT_MAX → to_int n = n)
  end.
Proof.
  intros Hv. pose proof (int_option_val_valid _ _ _ Hv) as Hvalid.
  unfold int_of_ocaml_int_option, store_int, Field. run.
  rewrite Hvalid. destruct Hv as [->|n Hb].
  - reflexivity.
  - rewrite (Is_some_singleton _ _ _ Hb), (field_at_0 _ _ _ _ _ Hb).
    rewrite (block_not_none _ _ _ Hb), Long_val_Val_long.
    split; [reflexivity | apply to_int_id].
Qed.

Lemma int_of_ocaml_int_option_spec_witness :
  int_option_val mem_some_7 16 (Some 7)
  ∧ int_of_ocaml_int_option 16 64 mem_some_7
    = Ret 1 (set_ints {[ 64 := 7 ]} mem_some_7).
Proof.
  assert (H : int_option_val mem_some_7 16 (Some 7)) by (by apply int_some).
  split; [exact H|].
  exact (proj1 (int_of_ocaml_int_option_spec mem_some_7 16 64 (Some 7) H)).
Defined.

(** C2 (as stated) fails for an integer beyond the range of [int]: for
    [Some 2147483648] the value stored through [i] is [-2147483648]. *)
Lemma int_of_ocaml_int_option_truncates :
  int_option_val mem_some_big 16 (Some (2 ^ 31))
  ∧ ∃ m', int_of_ocaml_int_option 16 64 mem_some_big = Ret 1 m'
      ∧ ints m' !! 64 = Some (- 2 ^ 31)
      ∧ ints m' !! 64 ≠ Some (2 ^ 31).
Proof.
  split; [by apply int_some|].
  eexists. split; [reflexivity|]. split; [reflexivity | discriminate].
Qed.

(** ** Strings *)

Lemma bind_ret_inv {S A B} (c : M S A) (k : A → M S B) s b s2 :
  bind c k s = Ret b s2 → ∃ a s1, c s = Ret a s1 ∧ k a s1 = Ret b s2.
Proof. unfold bind. destruct (c s) as [a s1| |]; [eauto | done | done]. Qed.

(** The byte after the characters of an OCaml string is null. *)
Lemma take_string_image bs :
  take (S (length bs)) (string_image bs) = bs ++ [x00].
Proof.
  unfold string_image. rewrite take_app, take_ge by lia.
  replace (S (length bs) - length bs)%nat with 1%nat by lia.
  destruct (pad_count (length bs)); reflexivity.
Qed.

Lemma length_string_image bs :
  length (string_image bs) = (length bs + pad_count (length bs) + 1)%nat.
Proof.
  unfold string_image. rewrite !length_app, length_replicate. simpl. lia.
Qed.

Lemma string_length_plus_one (len : Z) :
  0 ≤ len < INT_MAX →
  to_size_t (to_int (to_int len + 1)) = len + 1.
Proof.
  unfold INT_MAX. intros H.
  rewrite (to_int_id len) by (unfold INT_MIN, INT_MAX; lia).
  rewrite to_int_id by (unfold INT_MIN, INT_MAX; lia).
  apply to_size_t_id. lia.
Qed.

Lemma in_range (lo x hi : Z) :
  lo ≤ x ≤ hi → (lo <=? x) && (x <=? hi) = true.
Proof. intros H. apply andb_true_intro. split; apply Z.leb_le; lia. Qed.

(** Copying a string into a block of exactly its size plus one. *)
Lemma memcpy_string m s_v bs p h :
  block_at m s_v = Some (Bytes bs) →
  native m = <[p := replicate (S (length bs)) Undef]> h →
  memcpy p s_v (Z.of_nat (length bs) + 1) m
    = Ret tt (set_native (<[p := (Data <$> bs) ++ [Data x00]]> h) m).
Proof.
  intros Hs Hp. unfold memcpy, write_cells, bytes_at, string_at. run.
  rewrite Hs. rewrite length_fmap, length_string_image.
  replace (Z.to_nat (Z.of_nat (length bs) + 1)) with (S (length bs)) by lia.
  rewrite in_range by lia.
  rewrite Hp, lookup_insert_eq.
  rewrite <- fmap_take, take_string_image, fmap_app. simpl.
  rewrite length_app, length_fmap, length_replicate. simpl.
  rewrite (proj2 (Z.leb_le _ _)) by lia.
  rewrite drop_ge by (simpl; rewrite length_replicate; lia).
  rewrite insert_insert_eq, app_nil_r. reflexivity.
Qed.

(** The copy [string_ocaml_to_c] returns when the allocation succeeds, and
    its exit when it fails, for a string whose length plus one fits [int]. *)
Lemma string_ocaml_to_c_eq m s_v bs :
  block_at m s_v = Some (Bytes bs) →
  Z.of_nat (length bs) < INT_MAX →
  string_ocaml_to_c s_v m =
    match malloc (Z.of_nat (length bs) + 1) m with
    | Ret p m1 =>
        if p =? NULL then Raise (out_of_memory_exn m1) m1
        else Ret p (set_native
                      (<[p := (Data <$> bs) ++ [Data x00]]> (native m))
                      (set_malloc_script (tail (malloc_script m)) m))
    | Raise e m1 => Raise e m1
    | Abort w => Abort w
    end.
Proof.
  intros Hs Hlen. unfold string_ocaml_to_c, caml_string_length. run.
  unfold Is_string, string_at. rewrite Hs. simpl. rewrite Hs. simpl.
  rewrite string_length_plus_one by lia.
  rewrite malloc_exn_eq.
  destruct (malloc_total (Z.of_nat (length bs) + 1) m) as (p & m1 & Hp).
  rewrite Hp. destruct (p =? NULL) eqn:Hnull; [reflexivity|].
  apply Z.eqb_neq in Hnull.
  destruct (malloc_ret _ _ _ _ Hp Hnull) as (_ & _ & ->).
  replace (Z.to_nat (Z.of_nat (length bs) + 1)) with (S (length bs)) by lia.
  erewrite memcpy_string; [reflexivity | exact Hs | reflexivity].
Qed.

Lemma string_option_val_valid m v o :
  string_option_val m v o → Is_string_option m v = true.
Proof.
  unfold Is_string_option. intros [->|s_v bs Hb Hs]; [reflexivity|].
  rewrite (Is_some_singleton _ _ _ Hb), (field_at_0 _ _ _ _ _ Hb).
  unfold Is_string. rewrite Hs. apply orb_true_r.
Qed.

Lemma string_ocaml_to_c_ret s_v m p m' :
  string_ocaml_to_c s_v m = Ret p m' → p ≠ NULL.
Proof.
  unfold string_ocaml_to_c.
  intros (_ & m1 & _ & H)%bind_ret_inv.
  apply bind_ret_inv in H as (len & m2 & _ & H).
  apply bind_ret_inv in H as (s & m3 & Hs & H).
  apply bind_ret_inv in H as (_ & m4 & _ & H).
  injection H as <- _. by apply malloc_exn_ret in Hs as (? & _).
Qed.

(** C1 (as amended).  For a valid string option, the result is the null
    pointer, with memory unchanged, when the option is none.  When it is
    some(s), with s shorter than [INT_MAX] bytes, the outcome follows the
    allocation of [length s + 1] bytes: if [malloc] fails the function
    leaves as [raise_out_of_memory] does; if it succeeds the function
    returns the new block, at an address that was in use neither in
    native memory nor in the OCaml heap and that differs from the string's,
    holding the bytes of s followed by one null byte, the OCaml heap being
    left as it was. *)
Theorem string_of_ocaml_string_option_spec (m : mem) (v : value)
    (o : option (list byte)) :
  string_option_val m v o →
  match o with
  | None => string_of_ocaml_string_option v m = Ret NULL m
  | Some bs =>
      Z.of_nat (length bs) < INT_MAX →
      ∃ p m1, malloc (Z.of_nat (length bs) + 1) m = Ret p m1 ∧
        if p =? NULL then
          same_exit (string_of_ocaml_string_option v m) (raise_out_of_memory m1)
        else
          string_of_ocaml_string_option v m
            = Ret p (set_native
                       (<[p := (Data <$> bs) ++ [Data x00]]> (native m))
                       (set_malloc_script (tail (malloc_script m)) m))
          ∧ native m !! p = None
          ∧ managed m !! p = None
          ∧ field_at m v 0 ≠ Some p
  end.
Proof.
  intros Hv. pose proof (string_option_val_valid _ _ _ Hv) as Hvalid.
  unfold string_of_ocaml_string_option, Field. run. rewrite Hvalid.
  destruct Hv as [->|s_v bs Hb Hs]; [reflexivity|].
  intros Hlen.
  rewrite (block_not_none _ _ _ Hb), (field_at_0 _ _ _ _ _ Hb).
  rewrite (string_ocaml_to_c_eq _ _ _ Hs Hlen).
  destruct (malloc_total (Z.of_nat (length bs) + 1) m) as (p & m1 & Hp).
  exists p, m1. split; [exact Hp|]. rewrite Hp.
  destruct (p =? NULL) eqn:Hnull.
  - rewrite raise_out_of_memory_eq. simpl. done.
  - apply Z.eqb_neq in Hnull.
    destruct (malloc_ret _ _ _ _ Hp Hnull) as (Hn & Hm & _).
    repeat split; try assumption.
    intros [= ->]. unfold block_at in Hs.
    destruct (Is_block p); congruence.
Qed.

Lemma string_of_ocaml_string_option_spec_witness :
  string_option_val mem_some_hi 16 (Some [x68; x69])
  ∧ string_of_ocaml_string_option 16 mem_some_hi
    = Ret 4096 (set_native {[ 4096 := [Data x68; Data x69; Data x00] ]}
                  mem_some_hi_exhausted).
Proof.
  assert (Hv : string_option_val mem_some_hi 16 (Some [x68; x69]))
    by (by apply (string_some _ _ 32)).
  split; [exact Hv|].
  destruct (string_of_ocaml_string_option_spec mem_some_hi 16 _ Hv)
    as (p & m1 & Hp & H); [reflexivity|].
  injection Hp as <- <-. exact (proj1 H).
Defined.

(** C1 (as stated) fails when the allocation fails: for [Some "hi"] and an
    allocator without memory no buffer is returned, the call leaves with
    the exception of [raise_out_of_memory]. *)
Lemma string_of_ocaml_string_option_out_of_memory :
  string_option_val mem_some_hi_exhausted 16 (Some [x68; x69])
  ∧ string_of_ocaml_string_option 16 mem_some_hi_exhausted
    = Raise (Failure "Out_of_memory not registered.") mem_some_hi_exhausted
  ∧ ¬ returns (string_of_ocaml_string_option 16 mem_some_hi_exhausted).
Proof.
  split; [by apply (string_some _ _ 32)|].
  split; [reflexivity | intros []].
Qed.

(** C9.  When [string_of_ocaml_string_option] returns on a valid string
    option, the pointer it returns is null exactly when the option is
    none. *)
Theorem string_of_ocaml_string_option_null_iff (m m' : mem) (v : value)
    (o : option (list byte)) (p : ptr) :
  string_option_val m v o →
  string_of_ocaml_string_option v m = Ret p m' →
  p = NULL ↔ o = None.
Proof.
  intros Hv. pose proof (string_option_val_valid _ _ _ Hv) as Hvalid.
  unfold string_of_ocaml_string_option, Field. run. rewrite Hvalid.
  destruct Hv as [->|s_v bs Hb Hs].
  - intros [= <- _]. done.
  - rewrite (block_not_none _ _ _ Hb), (field_at_0 _ _ _ _ _ Hb).
    intros Hp%string_ocaml_to_c_ret. split; [done | discriminate].
Qed.

Lemma string_of_ocaml_string_option_null_iff_witness :
  string_option_val mem_some_hi 16 (Some [x68; x69])
  ∧ string_of_ocaml_string_option 16 mem_some_hi
    = Ret 4096 (set_native {[ 4096 := [Data x68; Data x69; Data x00] ]}
                  mem_some_hi_exhausted)
  ∧ (4096 = NULL ↔ Some [x68; x69] = None).
Proof.
  assert (Hv : string_option_val mem_some_hi 16 (Some [x68; x69]))
    by (by apply (string_some _ _ 32)).
  split; [exact Hv|]. split; [reflexivity|].
  exact (string_of_ocaml_string_option_null_iff mem_some_hi _ 16 _ 4096
           Hv eq_refl).
Defined.

(** ** Array mapping *)

Lemma length_ptr_cells p : length (ptr_cells p) = 8%nat.
Proof. reflexivity. Qed.

Lemma length_ptr_array_cells ps :
  length (ptr_array_cells ps) = (8 * length ps)%nat.
Proof.
  unfold ptr_array_cells. induction ps as [|p ps IH]; [reflexivity|].
  rewrite bind_cons, length_app, length_ptr_cells, IH. simpl. lia.
Qed.

Lemma ptr_array_cells_snoc ps p :
  ptr_array_cells (ps ++ [p]) = ptr_array_cells ps ++ ptr_cells p.
Proof.
  unfold ptr_array_cells. rewrite bind_app, bind_cons. f_equal.
Qed.

Lemma fits_block (off n len : Z) :
  0 ≤ off → off + n ≤ len → (0 <=? off) && (off + n <=? len) = true.
Proof. intros. apply andb_true_intro. split; apply Z.leb_le; lia. Qed.

(** Storing the pointer that comes after the ones stored so far. *)
Lemma store_ptr_next m a ps p k :
  native m !! a = Some (ptr_array_cells ps ++ replicate (8 * S k) Undef) →
  store_ptr a (Z.of_nat (length ps)) p m
    = Ret tt (set_native
                (<[a := ptr_array_cells (ps ++ [p]) ++ replicate (8 * k) Undef]>
                   (native m)) m).
Proof.
  intros Ha. unfold store_ptr, write_cells, sizeof_ptr. rewrite Ha.
  rewrite length_app, length_ptr_array_cells, length_replicate, length_ptr_cells.
  rewrite fits_block by lia.
  replace (Z.to_nat (8 * Z.of_nat (length ps))) with
    (length (ptr_array_cells ps)) by (rewrite length_ptr_array_cells; lia).
  rewrite take_app_length.
  rewrite drop_app, drop_ge by lia.
  rewrite drop_replicate, length_ptr_array_cells.
  replace (8 * length ps + 8 - 8 * length ps)%nat with 8%nat by lia.
  replace (8 * S k - 8)%nat with (8 * k)%nat by lia.
  rewrite ptr_array_cells_snoc, <- app_assoc. reflexivity.
Qed.

Section ArrayMap.

Context (f : value → M mem ptr) (array : value).

(** One turn of the loop. *)
Lemma array_map_loop_step p k i s v r m1 m2 :
  field_at (heap s) array i = Some v →
  f v (heap s) = Ret r m1 →
  store_ptr p i r m1 = Ret tt m2 →
  array_map_loop f array p (S k) i s
    = array_map_loop f array p k (to_uint (i + 1))
        (State m2 (trace s ++ [EvRead array i v; EvCall v; EvReturn r;
                               EvStore p i r])).
Proof.
  intros Hv Hf Hst. simpl. unfold call, lift, log, Field. run. simpl.
  rewrite Hv. simpl. rewrite Hf. simpl. rewrite Hst. simpl.
  rewrite <- !app_assoc. reflexivity.
Qed.

(** [array_map] up to its loop, for an array that is not empty. *)
Lemma array_map_alloc t vs s :
  block_at (heap s) array = Some (Fields t vs) →
  0 < Z.of_nat (length vs) ≤ UINT_MAX →
  array_map array f s =
    match malloc (sizeof_ptr * Z.of_nat (length vs)) (heap s) with
    | Ret p m1 =>
        if p =? NULL then Raise (out_of_memory_exn m1) (State m1 (trace s))
        else bind (array_map_loop f array p (length vs) 0) (λ _, ret p)
               (State m1 (trace s))
    | Raise e m1 => Raise e (State m1 (trace s))
    | Abort w => Abort w
    end.
Proof.
  intros Harr Hlen. unfold array_map, lift at 1, Wosize_val. run.
  rewrite Harr. cbn [fmap option_fmap option_map wosize_of heap trace].
  rewrite to_uint_id by lia.
  destruct (Z.of_nat (length vs) =? 0) eqn:H0; [lia|].
  unfold UINT_MAX, sizeof_ptr in *. rewrite to_size_t_id by lia.
  unfold lift. cbn [heap trace]. rewrite malloc_exn_eq.
  destruct (malloc (8 * Z.of_nat (length vs)) (heap s)) as [p m1| |];
    try reflexivity.
  destruct (p =? NULL); [reflexivity|]. rewrite Nat2Z.id. reflexivity.
Qed.

(** A run of the loop in which the calls return: the turns of the run
    are those of [array_map_loop]. *)
Lemma array_map_loop_calls p keep i m calls m' :
  run_of_calls f array p keep i m calls m' →
  ∀ t k, 0 ≤ i → i + Z.of_nat (length calls) ≤ UINT_MAX →
    array_map_loop f array p (length calls + k) i (State m t)
      = array_map_loop f array p k (i + Z.of_nat (length calls))
          (State m' (t ++ loop_events array p i calls)).
Proof.
  induction 1 as [i m|i m v r m1 m2 calls m3 Hv Hf _ Hst _ IH];
    intros t k Hi Hmax.
  - simpl. by rewrite Z.add_0_r, app_nil_r.
  - change (length ((v, r) :: calls) + k)%nat with (S (length calls + k)).
    rewrite (array_map_loop_step p _ i (State m t) v r m1 m2 Hv Hf Hst).
    simpl length in Hmax. rewrite to_uint_id by lia.
    rewrite IH; [|lia|lia].
    f_equal; [simpl length; lia|]. f_equal. cbn [trace].
    by rewrite <- app_assoc.
Qed.

(** The store of a turn changes native memory only. *)
Lemma store_ptr_managed p i r m m' :
  store_ptr p i r m = Ret tt m' → managed m' = managed m.
Proof.
  unfold store_ptr, write_cells. destruct (native m !! p); [|discriminate].
  destruct (_ && _); [|discriminate]. by intros [= <-].
Qed.

(** When the calls leave the new array alone, it fills up with the
    pointers they return. *)
Lemma run_of_calls_cells p i m calls m' :
  run_of_calls f array p (leaves_arrays array p) i m calls m' →
  ∀ done k, i = Z.of_nat (length done) →
    native m !! p
      = Some (ptr_array_cells done
              ++ replicate (8 * (length calls + k)) Undef) →
    native m' !! p
      = Some (ptr_array_cells (done ++ calls.*2) ++ replicate (8 * k) Undef).
Proof.
  induction 1 as [i m|i m v r m1 m2 calls m3 _ _ [_ Hkeep] Hst _ IH];
    intros done k Hi Hp.
  - simpl in *. by rewrite app_nil_r.
  - change (length ((v, r) :: calls) + k)%nat with (S (length calls + k)) in Hp.
    rewrite <- Hkeep in Hp.
    pose proof (store_ptr_next m1 p done r _ Hp) as Hst'.
    rewrite <- Hi, Hst in Hst'. injection Hst' as ->.
    rewrite (IH (done ++ [r]) k).
    + simpl. by rewrite <- app_assoc.
    + rewrite length_app. simpl. lia.
    + simpl. apply lookup_insert_eq.
Qed.

(** When the calls leave the OCaml array alone, the values read are its
    elements. *)
Lemma run_of_calls_values p i m calls m' :
  run_of_calls f array p (leaves_arrays array p) i m calls m' →
  ∀ t pre rest, i = Z.of_nat (length pre) →
    block_at m array = Some (Fields t (pre ++ rest)) →
    block_at m' array = block_at m array
    ∧ ∃ suffix, rest = calls.*1 ++ suffix.
Proof.
  induction 1 as [i m|i m v r m1 m2 calls m3 Hv _ [Hkeep _] Hst _ IH];
    intros t pre rest Hi Harr.
  - split; [reflexivity|]. by exists rest.
  - unfold field_at in Hv. rewrite Harr, Hi in Hv.
    rewrite (proj2 (Z.leb_le _ _)), Nat2Z.id in Hv by lia.
    rewrite lookup_app_r, Nat.sub_diag in Hv by lia.
    destruct rest as [|v' rest]; [discriminate|]. injection Hv as ->.
    assert (Harr2 : block_at m2 array = block_at m array).
    { rewrite (block_at_managed m1 m2); [exact Hkeep|].
      by eapply store_ptr_managed. }
    destruct (IH t (pre ++ [v]) rest) as [Harr3 [suffix ->]].
    + rewrite length_app. simpl. lia.
    + rewrite Harr2, Harr, <- app_assoc. reflexivity.
    + split; [congruence|]. by exists suffix.
Qed.

End ArrayMap.

Lemma calls_of_loop_events array p calls :
  ∀ i, calls_of (loop_events array p i calls) = calls.*1.
Proof.
  induction calls as [|[v r] calls IH]; intros i; [reflexivity|].
  simpl. f_equal. apply IH.
Qed.

Lemma indices_read_loop_events array p calls :
  ∀ i, indices_read (loop_events array p i calls)
       = seqZ i (Z.of_nat (length calls)).
Proof.
  induction calls as [|[v r] calls IH]; intros i; [reflexivity|].
  simpl length. rewrite seqZ_cons by lia. simpl. f_equal.
  rewrite IH. f_equal; lia.
Qed.

Lemma read_then_call_loop_events array p calls :
  ∀ i, read_then_call (loop_events array p i calls).
Proof.
  induction calls as [|[v r] calls IH]; intros i k a j w Hk; [done|].
  destruct k as [|[|[|[|k]]]]; simpl in *; try discriminate.
  - by injection Hk as _ _ ->.
  - by apply (IH (i + 1) k a j w).
Qed.

(** C5 (as amended).  For an array of n elements, 0 < n <= UINT_MAX, the
    outcome follows the allocation of n pointers.  If [malloc] fails,
    [array_map] leaves as [raise_out_of_memory] does.  If it succeeds, then
    in every run in which each call of [f] returns, leaving the OCaml
    array and the new array as they are, [array_map] returns the new
    block, which was not allocated before; the values the calls were made
    on are the elements of the array, in their order, and the new block
    holds the n pointers the calls returned, the one at index i being the
    one returned for element i. *)
Theorem array_map_spec (s : state) (array : value) (vs : list value)
    (f : value → M mem ptr) (p : ptr) (m1 : mem) :
  array_val (heap s) array vs →
  0 < Z.of_nat (length vs) ≤ UINT_MAX →
  malloc (sizeof_ptr * Z.of_nat (length vs)) (heap s) = Ret p m1 →
  if p =? NULL then
    same_exit (array_map array f s)
      (lift raise_out_of_memory (State m1 (trace s)))
  else
    ∀ calls m',
      run_of_calls f array p (leaves_arrays array p) 0 m1 calls m' →
      length calls = length vs →
      array_map array f s
        = Ret p (State m' (trace s ++ loop_events array p 0 calls))
      ∧ native (heap s) !! p = None
      ∧ calls.*1 = vs
      ∧ native m' !! p = Some (ptr_array_cells calls.*2).
Proof.
  intros [t Harr] Hlen Hp.
  rewrite (array_map_alloc f array t vs s Harr Hlen), Hp.
  destruct (p =? NULL) eqn:Hnull.
  - unfold lift. simpl. rewrite raise_out_of_memory_eq. done.
  - apply Z.eqb_neq in Hnull. intros calls m' Hrun Hcalls.
    destruct (malloc_ret _ _ _ _ Hp Hnull) as (Hfree & _ & Hm1).
    unfold bind. rewrite <- Hcalls, <- (Nat.add_0_r (length calls)).
    rewrite (array_map_loop_calls f array p _ 0 m1 calls m' Hrun) by lia.
    split; [reflexivity|]. split; [exact Hfree|].
    destruct (run_of_calls_values f array p 0 m1 calls m' Hrun t [] vs)
      as [_ [suffix Hvs]]; [reflexivity | |].
    { rewrite (block_at_managed (heap s)); [exact Harr | by subst m1]. }
    split.
    + assert (length suffix = 0%nat) as Hnil.
      { apply (f_equal length) in Hvs.
        rewrite length_app, length_fmap in Hvs. lia. }
      destruct suffix; [|discriminate]. by rewrite app_nil_r in Hvs.
    + rewrite (run_of_calls_cells f array p 0 m1 calls m' Hrun [] 0%nat);
        [by rewrite app_nil_r | reflexivity |].
      subst m1. simpl. rewrite lookup_insert_eq. do 2 f_equal.
      unfold sizeof_ptr. lia.
Qed.

Lemma array_map_spec_witness :
  array_val (heap (initial mem_string_array)) 16 [32; 48]
  ∧ 0 < Z.of_nat (length [32; 48]) ≤ UINT_MAX
  ∧ malloc (sizeof_ptr * Z.of_nat (length [32; 48]))
      (heap (initial mem_string_array))
    = Ret 4096 (set_native {[ 4096 := replicate 16 Undef ]}
                  (set_malloc_script [8192; 12288] mem_string_array))
  ∧ run_of_calls string_ocaml_to_c 16 4096 (leaves_arrays 16 4096) 0
      (set_native {[ 4096 := replicate 16 Undef ]}
         (set_malloc_script [8192; 12288] mem_string_array))
      [(32, 8192); (48, 12288)]
      (set_native {[ 4096 := ptr_array_cells [8192; 12288];
                     8192 := c_copy [x68; x69];
                     12288 := c_copy [x68; x6f] ]}
         (set_malloc_script [] mem_string_array))
  ∧ array_map 16 string_ocaml_to_c (initial mem_string_array)
    = Ret 4096
        (State (set_native {[ 4096 := ptr_array_cells [8192; 12288];
                              8192 := c_copy [x68; x69];
                              12288 := c_copy [x68; x6f] ]}
                  (set_malloc_script [] mem_string_array))
           (loop_events 16 4096 0 [(32, 8192); (48, 12288)]))
  ∧ [(32, 8192); (48, 12288)].*1 = [32; 48]
  ∧ native (set_native {[ 4096 := ptr_array_cells [8192; 12288];
                          8192 := c_copy [x68; x69];
                          12288 := c_copy [x68; x6f] ]}
              (set_malloc_script [] mem_string_array)) !! 4096
    = Some (ptr_array_cells [(32, 8192); (48, 12288)].*2).
Proof.
  assert (Harr : array_val (heap (initial mem_string_array)) 16 [32; 48])
    by (by exists 0).
  assert (Hlen : 0 < Z.of_nat (length [32; 48]) ≤ UINT_MAX)
    by (by vm_compute).
  assert (Hrun : run_of_calls string_ocaml_to_c 16 4096 (leaves_arrays 16 4096)
                   0
                   (set_native {[ 4096 := replicate 16 Undef ]}
                      (set_malloc_script [8192; 12288] mem_string_array))
                   [(32, 8192); (48, 12288)]
                   (set_native {[ 4096 := ptr_array_cells [8192; 12288];
                                  8192 := c_copy [x68; x69];
                                  12288 := c_copy [x68; x6f] ]}
                      (set_malloc_script [] mem_string_array))).
  { apply (run_call _ _ _ _ _ _ _ _
             (set_native {[ 4096 := replicate 16 Undef;
                            8192 := c_copy [x68; x69] ]}
                (set_malloc_script [12288] mem_string_array))
             (set_native
                {[ 4096 := ptr_array_cells [8192] ++ replicate 8 Undef;
                   8192 := c_copy [x68; x69] ]}
                (set_malloc_script [12288] mem_string_array)));
      [reflexivity | reflexivity | by split | reflexivity |].
    apply (run_call _ _ _ _ _ _ _ _
             (set_native
                {[ 4096 := ptr_array_cells [8192] ++ replicate 8 Undef;
                   8192 := c_copy [x68; x69];
                   12288 := c_copy [x68; x6f] ]}
                (set_malloc_script [] mem_string_array))
             (set_native {[ 4096 := ptr_array_cells [8192; 12288];
                            8192 := c_copy [x68; x69];
                            12288 := c_copy [x68; x6f] ]}
                (set_malloc_script [] mem_string_array)));
      [reflexivity | reflexivity | by split | reflexivity |].
    apply run_done. }
  split; [exact Harr|]. split; [exact Hlen|]. split; [reflexivity|].
  split; [exact Hrun|].
  destruct (array_map_spec (initial mem_string_array) 16 [32; 48]
              string_ocaml_to_c 4096 _ Harr Hlen eq_refl _ _ Hrun eq_refl)
    as (H1 & _ & H3 & H4).
  split; [exact H1|]. split; [exact H3 | exact H4].
Defined.

(** C5 (as stated) fails when the allocation fails: with an allocator
    without memory, [array_map] on a two-element array and a function that
    returns on every value and changes nothing in memory returns no array,
    it leaves with the exception of [raise_out_of_memory]. *)
Lemma array_map_out_of_memory :
  array_val (heap (initial mem_array_exhausted)) 16 [3; 5]
  ∧ (∀ v m, static_name v m = Ret (1000 + 8 * v) m)
  ∧ array_map 16 static_name (initial mem_array_exhausted)
    = Raise (Failure "Out_of_memory not registered.")
        (initial mem_array_exhausted)
  ∧ ¬ returns (array_map 16 static_name (initial mem_array_exhausted)).
Proof.
  split; [by exists 0|]. split; [reflexivity|].
  split; [reflexivity | intros []].
Qed.

(** C6.  On an array without elements [array_map] returns the null
    pointer and leaves the state as it found it: no block is allocated,
    the allocator is not asked, and no call through [f] is recorded. *)
Theorem array_map_empty (s : state) (array : value) (f : value → M mem ptr) :
  array_val (heap s) array [] →
  array_map array f s = Ret NULL s.
Proof.
  intros [t Harr]. unfold array_map, lift, Wosize_val. run.
  rewrite Harr. destruct s; reflexivity.
Qed.

Lemma array_map_empty_witness :
  array_val (heap (initial mem_empty_array)) 16 []
  ∧ array_map 16 unreachable (initial mem_empty_array)
    = Ret NULL (initial mem_empty_array).
Proof.
  assert (Harr : array_val (heap (initial mem_empty_array)) 16 [])
    by (by exists 0).
  split; [exact Harr|].
  exact (array_map_empty (initial mem_empty_array) 16 unreachable Harr).
Defined.

(** C10 (as amended).  For an array of n elements, 0 < n <= UINT_MAX, when
    the allocation of the new array succeeds, in every run in which each
    call of [f] returns [array_map] returns, and the events of the run
    are, for i = 0, ..., n-1 in this order: the read of element i, the
    call of [f] on the value read, its return and the store at index i.
    So [f] is called once for each index, on the element just read there;
    the indices read are 0, ..., n-1 in increasing order; and each read of
    an element is followed at once by the call on it. *)
Theorem array_map_calls_in_order (s : state) (array : value)
    (vs : list value) (f : value → M mem ptr) (p : ptr) (m1 m' : mem)
    (calls : list (value * ptr)) :
  array_val (heap s) array vs →
  0 < Z.of_nat (length vs) ≤ UINT_MAX →
  malloc (sizeof_ptr * Z.of_nat (length vs)) (heap s) = Ret p m1 →
  p ≠ NULL →
  run_of_calls f array p anything 0 m1 calls m' →
  length calls = length vs →
  array_map array f s
    = Ret p (State m' (trace s ++ loop_events array p 0 calls))
  ∧ calls_of (loop_events array p 0 calls) = calls.*1
  ∧ indices_read (loop_events array p 0 calls)
    = seqZ 0 (Z.of_nat (length vs))
  ∧ read_then_call (loop_events array p 0 calls).
Proof.
  intros [t Harr] Hlen Hp Hnull Hrun Hcalls.
  rewrite (array_map_alloc f array t vs s Harr Hlen), Hp.
  rewrite (proj2 (Z.eqb_neq _ _) Hnull).
  unfold bind. rewrite <- Hcalls, <- (Nat.add_0_r (length calls)).
  rewrite (array_map_loop_calls f array p _ 0 m1 calls m' Hrun) by lia.
  split; [reflexivity|]. split; [apply calls_of_loop_events|].
  split; [|apply read_then_call_loop_events].
  rewrite Nat.add_0_r. apply indices_read_loop_events.
Qed.

Lemma array_map_calls_in_order_witness :
  array_val (heap (initial mem_array)) 16 [3; 5]
  ∧ 0 < Z.of_nat (length [3; 5]) ≤ UINT_MAX
  ∧ malloc (sizeof_ptr * Z.of_nat (length [3; 5])) (heap (initial mem_array))
    = Ret 4096 (set_native {[ 4096 := replicate 16 Undef ]}
                  mem_array_exhausted)
  ∧ 4096 ≠ NULL
  ∧ run_of_calls rewriting 16 4096 anything 0
      (set_native {[ 4096 := replicate 16 Undef ]} mem_array_exhausted)
      [(3, 1024); (7, 1056)]
      (set_managed {[ 16 := Fields 0 [3; 7] ]}
         (set_native {[ 4096 := ptr_array_cells [1024; 1056] ]}
            mem_array_exhausted))
  ∧ array_map 16 rewriting (initial mem_array)
    = Ret 4096
        (State (set_managed {[ 16 := Fields 0 [3; 7] ]}
                  (set_native {[ 4096 := ptr_array_cells [1024; 1056] ]}
                     mem_array_exhausted))
           [EvRead 16 0 3; EvCall 3; EvReturn 1024; EvStore 4096 0 1024;
            EvRead 16 1 7; EvCall 7; EvReturn 1056; EvStore 4096 1 1056]).
Proof.
  assert (Harr : array_val (heap (initial mem_array)) 16 [3; 5])
    by (by exists 0).
  assert (Hlen : 0 < Z.of_nat (length [3; 5]) ≤ UINT_MAX)
    by (by vm_compute).
  assert (Hnull : 4096 ≠ NULL) by discriminate.
  assert (Hrun : run_of_calls rewriting 16 4096 anything 0
                   (set_native {[ 4096 := replicate 16 Undef ]}
                      mem_array_exhausted)
                   [(3, 1024); (7, 1056)]
                   (set_managed {[ 16 := Fields 0 [3; 7] ]}
                      (set_native {[ 4096 := ptr_array_cells [1024; 1056] ]}
                         mem_array_exhausted))).
  { apply (run_call _ _ _ _ _ _ _ _
             (set_managed {[ 16 := Fields 0 [3; 7] ]}
                (set_native {[ 4096 := replicate 16 Undef ]}
                   mem_array_exhausted))
             (set_managed {[ 16 := Fields 0 [3; 7] ]}
                (set_native
                   {[ 4096 := ptr_array_cells [1024] ++ replicate 8 Undef ]}
                   mem_array_exhausted)));
      [reflexivity | reflexivity | exact I | reflexivity |].
    apply (run_call _ _ _ _ _ _ _ _
             (set_managed {[ 16 := Fields 0 [3; 7] ]}
                (set_native
                   {[ 4096 := ptr_array_cells [1024] ++ replicate 8 Undef ]}
                   mem_array_exhausted))
             (set_managed {[ 16 := Fields 0 [3; 7] ]}
                (set_native {[ 4096 := ptr_array_cells [1024; 1056] ]}
                   mem_array_exhausted)));
      [reflexivity | reflexivity | exact I | reflexivity |].
    apply run_done. }
  split; [exact Harr|]. split; [exact Hlen|]. split; [reflexivity|].
  split; [exact Hnull|]. split; [exact Hrun|].
  exact (proj1 (array_map_calls_in_order (initial mem_array) 16 [3; 5]
                  rewriting 4096 _ _ _ Harr Hlen eq_refl Hnull Hrun
                  eq_refl)).
Defined.

(** C10 (as stated) fails when the allocation fails: with an allocator
    without memory [array_map] leaves before the loop, and [f] is called
    on no element of the two-element array. *)
Lemma array_map_out_of_memory_calls_nothing :
  array_val (heap (initial mem_array_exhausted)) 16 [3; 5]
  ∧ ∃ e s', array_map 16 static_name (initial mem_array_exhausted) = Raise e s'
      ∧ calls_of (trace s') = []
      ∧ calls_of (trace s') ≠ [3; 5].
Proof.
  split; [by exists 0|].
  exists (Failure "Out_of_memory not registered."),
    (initial mem_array_exhausted).
  split; [reflexivity|]. split; [reflexivity | discriminate].
Qed.

(** ** Beyond the bounds of the statements above

    The statements about strings and arrays ask for a length that fits the
    C type that receives it, and those about [array_map] for a function
    that returns.  The remarks below record what the code does
    otherwise. *)

(** The length of an array of 2^32 elements becomes 0 in [unsigned int]:
    the array is taken for an empty one. *)
Remark array_map_length_wraps (s : state) (array : value) (vs : list value)
    (f : value → M mem ptr) :
  array_val (heap s) array vs →
  Z.of_nat (length vs) = 2 ^ 32 →
  array_map array f s = Ret NULL s.
Proof.
  intros [t Harr] Hlen. unfold array_map, lift, Wosize_val. run.
  rewrite Harr. cbn [fmap option_fmap option_map wosize_of].
  rewrite Hlen. destruct s; reflexivity.
Qed.

(** The length of a string of 2^32 bytes becomes 0 in [int]: one byte is
    allocated and receives the first character, without a terminator. *)
Remark string_ocaml_to_c_length_wraps (m m1 : mem) (s_v : value) (b : byte)
    (bs : list byte) (p : ptr) :
  block_at m s_v = Some (Bytes (b :: bs)) →
  Z.of_nat (length (b :: bs)) = 2 ^ 32 →
  malloc 1 m = Ret p m1 →
  p ≠ NULL →
  string_ocaml_to_c s_v m
    = Ret p (set_native (<[p := [Data b]]> (native m))
               (set_malloc_script (tail (malloc_script m)) m)).
Proof.
  intros Hs Hlen Hp Hnull. unfold string_ocaml_to_c, caml_string_length. run.
  unfold Is_string, string_at. rewrite Hs.
  cbn [tag_of fmap option_fmap option_map]. rewrite Z.eqb_refl, Hs.
  cbn [fmap option_fmap option_map]. rewrite Hlen.
  change (to_size_t (to_int (to_int (2 ^ 32) + 1))) with 1.
  rewrite malloc_exn_eq, Hp, (proj2 (Z.eqb_neq _ _) Hnull).
  destruct (malloc_ret _ _ _ _ Hp Hnull) as (_ & _ & ->).
  unfold memcpy, write_cells, bytes_at, string_at. run.
  rewrite (block_at_managed m _ s_v), Hs by reflexivity.
  rewrite length_fmap, length_string_image, in_range by lia.
  cbn [native set_native]. rewrite lookup_insert_eq.
  change (Z.to_nat 1) with 1%nat. change (Z.to_nat 0) with 0%nat.
  cbn [take fmap list_fmap string_image app replicate length Nat.add drop].
  change (0 + Z.of_nat 1 <=? Z.of_nat 1) with true.
  cbn [andb]. rewrite insert_insert_eq. reflexivity.
Qed.

(** A conversion function that raises ends the loop: the elements after
    the one it was called on are neither read nor converted. *)
Remark array_map_stops_at_raise :
  array_map 16 failing (initial mem_array)
    = Raise (Failure "no conversion")
        (State (set_native {[ 4096 := replicate 16 Undef ]} mem_array_exhausted)
           [EvRead 16 0 3; EvCall 3]).
Proof. reflexivity. Qed.

(** * Further properties of the code *)

(** ** Named values *)

(** X1.  [named_value_exn] returns a pointer exactly when that pointer is
    the slot registered under the name and is not null; memory is then
    unchanged. *)
Theorem named_value_exn_returns_iff (n : string) (m m' : mem) (p : ptr) :
  named_value_exn n m = Ret p m'
  ↔ named m !! n = Some p ∧ p ≠ NULL ∧ m' = m.
Proof.
  split.
  - intros H%named_value_exn_ret. tauto.
  - intros (Hn & Hp & ->). rewrite named_value_exn_eq, Hn.
    by rewrite (proj2 (Z.eqb_neq _ _) Hp).
Qed.

Lemma named_value_exn_returns_iff_witness :
  named mem_registered !! "Out_of_memory"%string = Some 64
  ∧ named_value_exn "Out_of_memory" mem_registered = Ret 64 mem_registered.
Proof.
  split; [reflexivity|].
  apply (proj2 (named_value_exn_returns_iff "Out_of_memory" mem_registered
                  mem_registered 64)).
  split; [reflexivity|]. split; [discriminate | reflexivity].
Defined.

(** X2.  [raise_out_of_memory] always raises and leaves memory as it is:
    it raises the exception found in the slot registered under
    "Out_of_memory", and the failure "Out_of_memory not registered." when
    there is no such slot. *)
Theorem raise_out_of_memory_raises (m : mem) :
  raise_out_of_memory m =
    Raise (match named m !! "Out_of_memory"%string with
           | Some p => if p =? NULL
                       then Failure "Out_of_memory not registered."
                       else Exception (slots m p)
           | None => Failure "Out_of_memory not registered."
           end) m.
Proof. apply raise_out_of_memory_eq. Qed.

(** ** Integer options, on every input *)

(** X3.  On any value [int_of_ocaml_int_option] never raises.  It returns
    exactly on the values that pass [Is_int_option], and fails its
    assertion on the others.  When it returns 0 the value is none and
    memory is unchanged; when it returns 1 the value is not none and the
    only change is the store through [i] of the first field, converted
    to [int]. *)
Theorem int_of_ocaml_int_option_outcomes (v : value) (i : ptr) (m : mem) :
  match int_of_ocaml_int_option v i m with
  | Ret r m' =>
      Is_int_option m v = true
      ∧ (r = 0 ∧ Is_none v = true ∧ m' = m
         ∨ r = 1 ∧ Is_none v = false
           ∧ ∃ x, field_at m v 0 = Some x
               ∧ m' = set_ints (<[i := to_int (Long_val x)]> (ints m)) m)
  | Raise _ _ => False
  | Abort w => w = AssertionFailed ∧ Is_int_option m v = false
  end.
Proof.
  unfold int_of_ocaml_int_option, store_int, Field. run.
  destruct (Is_int_option m v) eqn:Hvalid; [|done].
  unfold Is_int_option in Hvalid.
  destruct (Is_none v) eqn:Hnone.
  - assert (Hsome : Is_some m v = false).
    { apply Is_none_spec in Hnone as ->. reflexivity. }
    rewrite Hsome. simpl. split; [done|]. left. done.
  - simpl in Hvalid. apply andb_prop in Hvalid as [Hsome Hfield].
    rewrite Hsome. destruct (field_at m v 0) as [x|]; [|discriminate].
    simpl. split; [done|]. right. eauto.
Qed.

(** ** What the string conversions leave alone *)

Lemma extends_refl m : extends m m.
Proof. by repeat split. Qed.

Lemma extends_trans m1 m2 m3 : extends m1 m2 → extends m2 m3 → extends m1 m3.
Proof.
  intros (? & ? & ? & ? & ? & H12) (? & ? & ? & ? & ? & H23).
  repeat split; try congruence. intros a cs Ha. by apply H23, H12.
Qed.

Lemma ensures_bind {S A B} (c : M S A) (k : A → M S B) s
    (Q : A → S → Prop) (R : B → S → Prop) (E : exn → S → Prop) :
  ensures c s Q E →
  (∀ a s', Q a s' → ensures (k a) s' R E) →
  ensures (bind c k) s R E.
Proof.
  unfold ensures, bind. intros Hc Hk.
  destruct (c s) as [a s'| |]; [by apply Hk | done | done].
Qed.

Lemma ensures_assert {S} (c : S → bool) s (Q : unit → S → Prop) E :
  Q tt s → ensures (assert c) s Q E.
Proof. unfold ensures, assert. by destruct (c s). Qed.

Lemma ensures_read {S A} (f : S → option A) s (Q : A → S → Prop) E :
  (∀ a, f s = Some a → Q a s) → ensures (read f) s Q E.
Proof. unfold ensures, read. destruct (f s); [by auto | done]. Qed.

(** [malloc] only adds a block, at an address that was free. *)
Lemma malloc_extends size m p m' :
  malloc size m = Ret p m' →
  extends m m' ∧ (p ≠ NULL → native m !! p = None ∧ managed m !! p = None).
Proof.
  unfold malloc. destruct (malloc_script m) as [|q rest].
  { intros [= <- <-]. split; [apply extends_refl | done]. }
  case_bool_decide as Hq; intros [= <- <-].
  - destruct Hq as (Hnull & Hn & Hm). split; [|done].
    repeat split; try reflexivity. intros a cs Ha. simpl.
    rewrite lookup_insert_ne; [done | congruence].
  - split; [by repeat split | done].
Qed.

Lemma malloc_exn_extends size m :
  ensures (malloc_exn size) m
    (λ p m', extends m m' ∧ native m !! p = None)
    (λ _ m', extends m m').
Proof.
  unfold ensures. rewrite malloc_exn_eq.
  destruct (malloc_total size m) as (p & m1 & Hp). rewrite Hp.
  destruct (malloc_extends _ _ _ _ Hp) as [Hext Hfree].
  destruct (p =? NULL) eqn:Hnull; [done|].
  apply Z.eqb_neq in Hnull. split; [done | by apply Hfree].
Qed.

(** Writing into a block that is not one of [m0] keeps what [m0] has. *)
Lemma write_cells_extends m0 m dst off cs :
  extends m0 m → native m0 !! dst = None →
  ensures (write_cells dst off cs) m (λ _ m', extends m0 m')
    (λ _ m', extends m0 m').
Proof.
  intros (? & ? & ? & ? & ? & Hkeep) Hdst. unfold ensures, write_cells.
  destruct (native m !! dst) as [old|]; [|done].
  destruct (_ && _); [|done].
  repeat split; try assumption. intros a cs' Ha. simpl.
  rewrite lookup_insert_ne; [by apply Hkeep | congruence].
Qed.

Lemma string_ocaml_to_c_extends s_v m :
  ensures (string_ocaml_to_c s_v) m (λ _ m', extends m m')
    (λ _ m', extends m m').
Proof.
  unfold string_ocaml_to_c.
  eapply ensures_bind; [apply (ensures_assert _ _ (λ _ m', m' = m)); done|].
  intros _ ? ->.
  eapply ensures_bind; [apply (ensures_read _ _ (λ _ m', m' = m)); done|].
  intros len ? ->. cbv zeta.
  eapply ensures_bind; [apply malloc_exn_extends|].
  intros p m1 [Hext Hfree]. unfold memcpy.
  apply (ensures_bind _ _ _ (λ _ m2, extends m m2)); [|intros [] m2 H; exact H].
  eapply ensures_bind; [apply (ensures_read _ _ (λ _ m', m' = m1)); done|].
  intros cs ? ->. by apply write_cells_extends.
Qed.

(** X4.  The string conversions change nothing but native memory, where
    they add at most one block: whether [string_ocaml_to_c] and
    [string_of_ocaml_string_option] return or raise, and on any value, the
    OCaml heap, the roots, the named values and the [int] objects are as
    before, and every native block that existed is still there with the
    same content.  Both therefore respect what [array_map] asks of its
    function argument. *)
Theorem string_conversions_extend (v : value) (m : mem) :
  ensures (string_ocaml_to_c v) m (λ _ m', extends m m') (λ _ m', extends m m')
  ∧ ensures (string_of_ocaml_string_option v) m (λ _ m', extends m m')
      (λ _ m', extends m m').
Proof.
  split; [apply string_ocaml_to_c_extends|].
  unfold string_of_ocaml_string_option.
  eapply ensures_bind; [apply (ensures_assert _ _ (λ _ m', m' = m)); done|].
  intros _ ? ->. destruct (Is_none v).
  - apply extends_refl.
  - eapply ensures_bind; [apply (ensures_read _ _ (λ _ m', m' = m)); done|].
    intros s_v ? ->. apply string_ocaml_to_c_extends.
Qed.

(** ** Native copies as C strings *)

Lemma c_string_c_copy bs : c_string (c_copy bs) = Some (until_null bs).
Proof.
  induction bs as [|b bs IH]; [reflexivity|].
  change (c_copy (b :: bs)) with (Data b :: c_copy bs). simpl.
  destruct (Byte.eqb b x00); [reflexivity|]. by rewrite IH.
Qed.

Lemma until_null_id bs : x00 ∉ bs → until_null bs = bs.
Proof.
  induction bs as [|b bs IH]; [reflexivity|].
  intros [Hb Hbs]%not_elem_of_cons. simpl.
  destruct (Byte.eqb b x00) eqn:E.
  - apply Byte.byte_dec_bl in E. congruence.
  - by rewrite IH.
Qed.

Lemma c_string_no_null cs : ∀ a, c_string cs = Some a → x00 ∉ a.
Proof.
  induction cs as [|c cs IH]; intros a; [discriminate|].
  destruct c as [|b|]; try discriminate. simpl.
  destruct (Byte.eqb b x00) eqn:E.
  - intros [= <-]. apply not_elem_of_nil.
  - destruct (c_string cs) as [a'|]; [|discriminate].
    intros [= <-]. apply not_elem_of_cons. split; [|by apply IH].
    apply Byte.eqb_false in E. congruence.
Qed.

(** What a return of [string_ocaml_to_c] says about the memory it leaves. *)
Lemma string_ocaml_to_c_ret_copy m m' s_v bs p :
  block_at m s_v = Some (Bytes bs) →
  Z.of_nat (length bs) < INT_MAX →
  string_ocaml_to_c s_v m = Ret p m' →
  native m !! p = None ∧ managed m !! p = None
  ∧ native m' !! p = Some (c_copy bs) ∧ extends m m'.
Proof.
  intros Hs Hlen Hrun.
  pose proof (string_ocaml_to_c_extends s_v m) as Hext.
  unfold ensures in Hext. rewrite Hrun in Hext.
  rewrite (string_ocaml_to_c_eq _ _ _ Hs Hlen) in Hrun.
  destruct (malloc_total (Z.of_nat (length bs) + 1) m) as (q & m1 & Hq).
  rewrite Hq in Hrun. destruct (q =? NULL) eqn:Hnull; [discriminate|].
  apply Z.eqb_neq in Hnull. injection Hrun as -> <-.
  destruct (malloc_ret _ _ _ _ Hq Hnull) as (Hn & Hm & _).
  split; [exact Hn|]. split; [exact Hm|]. split; [|exact Hext].
  simpl. apply lookup_insert_eq.
Qed.

Lemma string_option_some_unfold m v bs :
  string_option_val m v (Some bs) →
  ∃ s_v, block_at m s_v = Some (Bytes bs)
    ∧ string_of_ocaml_string_option v m = string_ocaml_to_c s_v m.
Proof.
  intros Hv. pose proof (string_option_val_valid _ _ _ Hv) as Hvalid.
  inversion Hv as [|s_v bs' Hb Hs]; subst. exists s_v. split; [exact Hs|].
  unfold string_of_ocaml_string_option, Field. run. rewrite Hvalid.
  by rewrite (block_not_none _ _ _ Hb), (field_at_0 _ _ _ _ _ Hb).
Qed.

Lemma string_option_val_extends m m' v o :
  extends m m' → string_option_val m v o → string_option_val m' v o.
Proof.
  intros (Hman & _) [->|s_v bs Hb Hs]; [by apply string_none|].
  apply (string_some _ _ s_v); by rewrite (block_at_managed m m').
Qed.

(** X5.  The block [string_ocaml_to_c] returns for an OCaml string
    shorter than [INT_MAX] bytes is, read as a C string, the characters of
    the OCaml string before its first null byte: the whole string when it
    has no null byte, a proper prefix of it otherwise. *)
Theorem string_ocaml_to_c_c_string (m m' : mem) (s_v : value)
    (bs : list byte) (p : ptr) :
  block_at m s_v = Some (Bytes bs) →
  Z.of_nat (length bs) < INT_MAX →
  string_ocaml_to_c s_v m = Ret p m' →
  c_string_at m' p = Some (until_null bs)
  ∧ (x00 ∉ bs → c_string_at m' p = Some bs).
Proof.
  intros Hs Hlen Hrun.
  destruct (string_ocaml_to_c_ret_copy _ _ _ _ _ Hs Hlen Hrun)
    as (_ & Hm & Hcopy & (Hman & _)).
  assert (Hc : c_string_at m' p = Some (until_null bs)).
  { unfold c_string_at, cells_at, string_at, block_at.
    rewrite Hman, Hm. destruct (Is_block p); rewrite Hcopy; simpl;
      apply c_string_c_copy. }
  split; [exact Hc|]. intros Hnull. by rewrite Hc, until_null_id.
Qed.

Lemma string_ocaml_to_c_c_string_witness :
  block_at mem_some_hi 32 = Some (Bytes [x68; x69])
  ∧ Z.of_nat (length [x68; x69]) < INT_MAX
  ∧ string_ocaml_to_c 32 mem_some_hi
    = Ret 4096 (set_native {[ 4096 := c_copy [x68; x69] ]}
                  mem_some_hi_exhausted)
  ∧ c_string_at (set_native {[ 4096 := c_copy [x68; x69] ]}
                   mem_some_hi_exhausted) 4096
    = Some [x68; x69].
Proof.
  split; [reflexivity|]. split; [reflexivity|]. split; [reflexivity|].
  exact (proj1 (string_ocaml_to_c_c_string mem_some_hi _ 32 [x68; x69] 4096
                  eq_refl eq_refl eq_refl)).
Defined.

(** X6.  Copies are independent: when [string_of_ocaml_string_option]
    returns twice for the same some(s), s shorter than [INT_MAX] bytes,
    the second pointer differs from the first, and after the second call
    both blocks hold the bytes of s followed by a null byte. *)
Theorem string_of_ocaml_string_option_twice (m m1 m2 : mem) (v : value)
    (bs : list byte) (p1 p2 : ptr) :
  string_option_val m v (Some bs) →
  Z.of_nat (length bs) < INT_MAX →
  string_of_ocaml_string_option v m = Ret p1 m1 →
  string_of_ocaml_string_option v m1 = Ret p2 m2 →
  p1 ≠ p2
  ∧ native m2 !! p1 = Some (c_copy bs)
  ∧ native m2 !! p2 = Some (c_copy bs).
Proof.
  intros Hv Hlen Hrun1 Hrun2.
  destruct (string_option_some_unfold _ _ _ Hv) as (s_v & Hs & Heq).
  rewrite Heq in Hrun1.
  destruct (string_ocaml_to_c_ret_copy _ _ _ _ _ Hs Hlen Hrun1)
    as (_ & _ & Hcopy1 & Hext1).
  pose proof (string_option_val_extends _ _ _ _ Hext1 Hv) as Hv1.
  destruct (string_option_some_unfold _ _ _ Hv1) as (s_v' & Hs' & Heq').
  rewrite Heq' in Hrun2.
  destruct (string_ocaml_to_c_ret_copy _ _ _ _ _ Hs' Hlen Hrun2)
    as (Hfree2 & _ & Hcopy2 & (_ & _ & _ & _ & _ & Hkeep)).
  split; [congruence|]. split; [by apply Hkeep | exact Hcopy2].
Qed.

Lemma string_of_ocaml_string_option_twice_witness :
  string_option_val mem_some_hi_twice 16 (Some [x68; x69])
  ∧ Z.of_nat (length [x68; x69]) < INT_MAX
  ∧ string_of_ocaml_string_option 16 mem_some_hi_twice
    = Ret 4096 (set_native {[ 4096 := c_copy [x68; x69] ]}
                  (set_malloc_script [8192] mem_some_hi))
  ∧ string_of_ocaml_string_option 16
      (set_native {[ 4096 := c_copy [x68; x69] ]}
         (set_malloc_script [8192] mem_some_hi))
    = Ret 8192 (set_native {[ 4096 := c_copy [x68; x69];
                              8192 := c_copy [x68; x69] ]}
                  mem_some_hi_exhausted)
  ∧ 4096 ≠ 8192.
Proof.
  assert (Hv : string_option_val mem_some_hi_twice 16 (Some [x68; x69]))
    by (by apply (string_some _ _ 32)).
  split; [exact Hv|]. split; [reflexivity|].
  split; [reflexivity|]. split; [reflexivity|].
  exact (proj1 (string_of_ocaml_string_option_twice mem_some_hi_twice _ _
                  16 [x68; x69] 4096 8192 Hv eq_refl eq_refl eq_refl)).
Defined.

(** ** String comparison *)

Lemma uchar_inj x y : uchar x = uchar y → x = y.
Proof.
  unfold uchar. intros H%N2Z.inj.
  pose proof (Byte.of_to_N x) as Hx. rewrite H, Byte.of_to_N in Hx.
  congruence.
Qed.

Lemma uchar_pos x : x ≠ x00 → 0 < uchar x.
Proof.
  intros Hx. assert (uchar x ≠ 0).
  { intros H. apply Hx, uchar_inj. exact H. }
  unfold uchar in *. lia.
Qed.

Lemma compare_bytes_zero a : ∀ b,
  x00 ∉ a → x00 ∉ b → compare_bytes a b = 0 ↔ a = b.
Proof.
  induction a as [|x a IH]; intros [|y b] Ha Hb; simpl.
  - done.
  - apply not_elem_of_cons in Hb as [Hy _].
    assert (0 < uchar y) by (apply uchar_pos; congruence).
    split; [lia | discriminate].
  - apply not_elem_of_cons in Ha as [Hx _].
    assert (0 < uchar x) by (apply uchar_pos; congruence).
    split; [lia | discriminate].
  - apply not_elem_of_cons in Ha as [_ Ha].
    apply not_elem_of_cons in Hb as [_ Hb].
    destruct (Byte.eqb x y) eqn:E.
    + apply Byte.byte_dec_bl in E as ->. rewrite (IH b Ha Hb).
      split; [by intros -> | by intros [= ->]].
    + apply Byte.eqb_false in E. split.
      * intros H. destruct E. apply uchar_inj. lia.
      * intros [= -> _]. done.
Qed.

Lemma compare_bytes_swap a : ∀ b, compare_bytes b a = - compare_bytes a b.
Proof.
  induction a as [|x a IH]; intros [|y b]; simpl; try lia.
  destruct (Byte.eqb x y) eqn:E.
  - apply Byte.byte_dec_bl in E as ->.
    rewrite (Byte.byte_dec_lb eq_refl). apply IH.
  - apply Byte.eqb_false in E. destruct (Byte.eqb y x) eqn:E'; [|lia].
    apply Byte.byte_dec_bl in E'. congruence.
Qed.

Lemma strcmp_eq m s1 s2 a b :
  c_string_at m s1 = Some a → c_string_at m s2 = Some b →
  strcmp s1 s2 m = Ret (compare_bytes a b) m.
Proof. intros Ha Hb. unfold strcmp. run. rewrite Ha. by rewrite Hb. Qed.

(** X7.  For two pointers to C strings, [strcmp_not_a_macro] returns,
    with memory unchanged, a number that is zero exactly when the two
    strings are equal, and whose sign is reversed when the arguments are
    exchanged. *)
Theorem strcmp_not_a_macro_spec (m : mem) (s1 s2 : ptr) (a b : list byte) :
  c_string_at m s1 = Some a →
  c_string_at m s2 = Some b →
  ∃ r r',
    strcmp_not_a_macro s1 s2 m = Ret r m
    ∧ strcmp_not_a_macro s2 s1 m = Ret r' m
    ∧ (r = 0 ↔ a = b)
    ∧ Z.sgn r' = - Z.sgn r.
Proof.
  intros Ha Hb. exists (compare_bytes a b), (compare_bytes b a).
  unfold strcmp_not_a_macro.
  split; [by apply strcmp_eq|]. split; [by apply strcmp_eq|]. split.
  - unfold c_string_at in *.
    destruct (cells_at m s1) as [c1|]; [|discriminate].
    destruct (cells_at m s2) as [c2|]; [|discriminate].
    apply compare_bytes_zero; eapply c_string_no_null; eassumption.
  - rewrite compare_bytes_swap. apply Z.sgn_opp.
Qed.

Lemma strcmp_not_a_macro_spec_witness :
  c_string_at mem_two_strings 4096 = Some [x68; x69]
  ∧ c_string_at mem_two_strings 8192 = Some [x68; x6f]
  ∧ ∃ r r',
      strcmp_not_a_macro 4096 8192 mem_two_strings = Ret r mem_two_strings
      ∧ strcmp_not_a_macro 8192 4096 mem_two_strings = Ret r' mem_two_strings
      ∧ (r = 0 ↔ [x68; x69] = [x68; x6f])
      ∧ Z.sgn r' = - Z.sgn r.
Proof.
  split; [reflexivity|]. split; [reflexivity|].
  exact (strcmp_not_a_macro_spec mem_two_strings 4096 8192 _ _
           eq_refl eq_refl).
Defined.

(** ** [array_map] on arrays of any length, and on calls that do not return *)

Section ArrayMapAny.

Context (f : value → M mem ptr) (array : value).

(** [array_map] up to its loop, whatever the length of the array. *)
Lemma array_map_alloc_any t vs s :
  block_at (heap s) array = Some (Fields t vs) →
  to_uint (Z.of_nat (length vs)) ≠ 0 →
  array_map array f s =
    match malloc (sizeof_ptr * to_uint (Z.of_nat (length vs))) (heap s) with
    | Ret p m1 =>
        if p =? NULL then Raise (out_of_memory_exn m1) (State m1 (trace s))
        else bind (array_map_loop f array p
                     (Z.to_nat (to_uint (Z.of_nat (length vs)))) 0)
               (λ _, ret p) (State m1 (trace s))
    | Raise e m1 => Raise e (State m1 (trace s))
    | Abort w => Abort w
    end.
Proof.
  intros Harr Hlen. unfold array_map, lift at 1, Wosize_val. run.
  rewrite Harr. cbn [fmap option_fmap option_map wosize_of heap trace].
  rewrite (proj2 (Z.eqb_neq _ _) Hlen).
  assert (0 ≤ to_uint (Z.of_nat (length vs)) < 2 ^ 32)
    by (apply Z.mod_pos_bound; lia).
  unfold sizeof_ptr. rewrite to_size_t_id by lia.
  unfold lift. cbn [heap trace]. rewrite malloc_exn_eq.
  destruct (malloc _ (heap s)) as [p m1| |]; try reflexivity.
  destruct (p =? NULL); reflexivity.
Qed.

(** An array whose size is 0 in [unsigned int] is taken for an empty one. *)
Lemma array_map_none t vs s :
  block_at (heap s) array = Some (Fields t vs) →
  to_uint (Z.of_nat (length vs)) = 0 →
  array_map array f s = Ret NULL s.
Proof.
  intros Harr Hlen. unfold array_map, lift, Wosize_val. run.
  rewrite Harr. cbn [fmap option_fmap option_map wosize_of].
  rewrite Hlen. destruct s; reflexivity.
Qed.

(** A turn of the loop in which the call raises. *)
Lemma array_map_loop_raise p k i s v e m1 :
  field_at (heap s) array i = Some v →
  f v (heap s) = Raise e m1 →
  array_map_loop f array p (S k) i s
    = Raise e (State m1 (trace s ++ [EvRead array i v; EvCall v])).
Proof.
  intros Hv Hf. simpl. unfold call, lift, log, Field. run. simpl.
  rewrite Hv. simpl. rewrite Hf. simpl.
  rewrite <- !app_assoc. reflexivity.
Qed.

(** A turn of the loop in which the call aborts. *)
Lemma array_map_loop_abort p k i s v w :
  field_at (heap s) array i = Some v →
  f v (heap s) = Abort w →
  array_map_loop f array p (S k) i s = Abort w.
Proof.
  intros Hv Hf. simpl. unfold call, lift, log, Field. run. simpl.
  rewrite Hv. simpl. by rewrite Hf.
Qed.

End ArrayMapAny.

Lemma converted_length_le vs :
  (converted_length vs ≤ length vs)%nat
  ∧ Z.of_nat (converted_length vs) = to_uint (Z.of_nat (length vs))
  ∧ Z.of_nat (converted_length vs) ≤ UINT_MAX.
Proof.
  unfold converted_length, to_uint, wrap_unsigned, UINT_MAX.
  pose proof (Z.mod_pos_bound (Z.of_nat (length vs)) (2 ^ 32) ltac:(lia)).
  pose proof (Z.mod_le (Z.of_nat (length vs)) (2 ^ 32) ltac:(lia) ltac:(lia)).
  lia.
Qed.

Lemma extends_overwrite m0 m p cs :
  extends m0 m → native m0 !! p = None →
  extends m0 (set_native (<[p := cs]> (native m)) m).
Proof.
  intros (? & ? & ? & ? & ? & Hkeep) Hp. repeat split; try assumption.
  intros a cs' Ha. simpl. rewrite lookup_insert_ne; [by apply Hkeep|].
  congruence.
Qed.

Section ArrayMapFrame.

Context (f : value → M mem ptr) (array : value).

(** The function argument changes nothing but native memory, to which it
    may add blocks. *)
Hypothesis f_extends :
  ∀ v m, ensures (f v) m (λ _ m', extends m m') (λ _ m', extends m m').

Lemma array_map_loop_frame m0 t p rest :
  ∀ pre done s suffix,
    block_at (heap s) array = Some (Fields t (pre ++ rest ++ suffix)) →
    length done = length pre →
    Z.of_nat (length (pre ++ rest)) ≤ UINT_MAX →
    native (heap s) !! p
      = Some (ptr_array_cells done ++ replicate (8 * length rest) Undef) →
    extends m0 (heap s) →
    native m0 !! p = None →
    match array_map_loop f array p (length rest) (Z.of_nat (length pre)) s with
    | Ret _ s' | Raise _ s' => extends m0 (heap s')
    | Abort w => ∃ v m, v ∈ rest ∧ f v m = Abort w
    end.
Proof.
  induction rest as [|v rest IH];
    intros pre done s suffix Harr Hlen Hmax Hp Hext Hfree; [exact Hext|].
  assert (Hfield : field_at (heap s) array (Z.of_nat (length pre)) = Some v).
  { unfold field_at. rewrite Harr, (proj2 (Z.leb_le _ _)) by lia.
    rewrite Nat2Z.id. by apply list_lookup_middle. }
  pose proof (f_extends v (heap s)) as Hf. unfold ensures in Hf.
  change (length (v :: rest)) with (S (length rest)) in *.
  destruct (f v (heap s)) as [r m1|e m1|w] eqn:Hcall.
  - destruct Hf as (Hman & Hrest).
    pose proof (store_ptr_next m1 p done r (length rest)
                  (proj2 (proj2 (proj2 (proj2 Hrest))) _ _ Hp)) as Hst.
    rewrite Hlen in Hst.
    rewrite (array_map_loop_step f array p _ _ _ _ _ _ _ Hfield Hcall Hst).
    rewrite length_app in Hmax. simpl in Hmax.
    rewrite to_uint_id by lia.
    replace (Z.of_nat (length pre) + 1) with (Z.of_nat (length (pre ++ [v])))
      by (rewrite length_app; simpl; lia).
    match goal with
    | |- context [array_map_loop _ _ _ _ _ ?st] => set (s2 := st)
    end.
    assert (IH' := IH (pre ++ [v]) (done ++ [r]) s2 suffix).
    rewrite (block_at_managed (heap s) (heap s2)) in IH' by exact Hman.
    rewrite <- !app_assoc, !length_app, Hlen in IH'.
    specialize (IH' Harr eq_refl ltac:(simpl; lia)
                  ltac:(simpl; apply lookup_insert_eq)).
    specialize (IH' (extends_overwrite _ _ _ _
                       (extends_trans _ _ _ Hext (conj Hman Hrest)) Hfree)
                  Hfree).
    rewrite length_app.
    destruct (array_map_loop f array p (length rest)
                (Z.of_nat (length pre + length [v])) s2) as [[] s'|e s'|w];
      [exact IH' | exact IH' |].
    destruct IH' as (v' & m' & Hv' & Habort).
    exists v', m'. split; [by apply elem_of_cons; right | exact Habort].
  - rewrite (array_map_loop_raise f array p _ _ _ _ _ _ Hfield Hcall).
    simpl. by eapply extends_trans.
  - rewrite (array_map_loop_abort f array p _ _ _ _ _ Hfield Hcall).
    exists v, (heap s). split; [by apply elem_of_cons; left | exact Hcall].
Qed.

(** X8.  With a function argument that changes nothing but native memory,
    adding blocks at most, [array_map] on an array of any size does the
    same, whether it returns or raises: the OCaml heap, the roots, the
    named values and the [int] objects are as before and every native
    block that existed is still there with the same content.  Nothing is
    released, be it on a raise in the middle of the array.  And the run
    aborts only when a call of the function argument on an element of the
    array aborts. *)
Theorem array_map_extends (s : state) (vs : list value) :
  array_val (heap s) array vs →
  match array_map array f s with
  | Ret _ s' | Raise _ s' => extends (heap s) (heap s')
  | Abort w => ∃ v m, v ∈ vs ∧ f v m = Abort w
  end.
Proof.
  intros [t Harr].
  destruct (decide (to_uint (Z.of_nat (length vs)) = 0)) as [Hz|Hnz].
  { rewrite (array_map_none f array t vs s Harr Hz). apply extends_refl. }
  rewrite (array_map_alloc_any f array t vs s Harr Hnz).
  destruct (converted_length_le vs) as (Hle & Hcl & Hmax).
  fold (converted_length vs). rewrite <- Hcl.
  set (k := converted_length vs) in *.
  destruct (malloc_total (sizeof_ptr * Z.of_nat k) (heap s)) as (p & m1 & Hp).
  rewrite Hp. destruct (malloc_extends _ _ _ _ Hp) as [Hext Hfree].
  destruct (p =? NULL) eqn:Hnull; [exact Hext|].
  apply Z.eqb_neq in Hnull.
  destruct (malloc_ret _ _ _ _ Hp Hnull) as (Hpfree & _ & Hm1).
  assert (Hlen : length (take k vs) = k) by (rewrite length_take; lia).
  pose proof (array_map_loop_frame (heap s) t p (take k vs) [] []
                (State m1 (trace s)) (drop k vs)) as Hloop.
  rewrite Hlen in Hloop. change (Z.of_nat (length [])) with 0 in Hloop.
  simpl app in Hloop. rewrite take_drop in Hloop.
  rewrite (block_at_managed (heap s) (heap (State m1 (trace s)))) in Hloop
    by (by subst m1).
  specialize (Hloop Harr eq_refl ltac:(lia)).
  assert (Hcells : native m1 !! p = Some (replicate (8 * k) Undef)).
  { subst m1. simpl. rewrite lookup_insert_eq. do 2 f_equal.
    unfold sizeof_ptr. lia. }
  specialize (Hloop Hcells Hext Hpfree).
  unfold bind.
  destruct (array_map_loop f array p k 0 (State m1 (trace s)))
    as [[] s'|e s'|w]; [exact Hloop | exact Hloop |].
  destruct Hloop as (v & m & Hv & Habort).
  exists v, m. split; [|exact Habort].
  apply elem_of_take in Hv as (i & Hi & _).
  by eapply list_elem_of_lookup_2.
Qed.

End ArrayMapFrame.

Lemma array_map_extends_witness :
  (∀ v m, ensures (string_ocaml_to_c v) m (λ _ m', extends m m')
            (λ _ m', extends m m'))
  ∧ array_val (heap (initial mem_string_array)) 16 [32; 48]
  ∧ match array_map 16 string_ocaml_to_c (initial mem_string_array) with
    | Ret _ s' | Raise _ s' => extends mem_string_array (heap s')
    | Abort w => ∃ v m, v ∈ [32; 48] ∧ string_ocaml_to_c v m = Abort w
    end.
Proof.
  assert (Harr : array_val (heap (initial mem_string_array)) 16 [32; 48])
    by (by exists 0).
  split; [apply string_ocaml_to_c_extends|]. split; [exact Harr|].
  exact (array_map_extends string_ocaml_to_c 16 string_ocaml_to_c_extends
           (initial mem_string_array) [32; 48] Harr).
Defined.

Lemma length_huge_array : Z.of_nat (length huge_array) = 2 ^ 32 + 2.
Proof.
  unfold huge_array. rewrite !length_cons, length_replicate.
  rewrite !Nat2Z.inj_succ, Z2Nat.id; lia.
Qed.

Lemma converted_length_huge_array : converted_length huge_array = 2%nat.
Proof. unfold converted_length. rewrite length_huge_array. reflexivity. Qed.

(** X9.  On an array of any size, [array_map] works on the first
    [converted_length vs] elements, the size of the array modulo 2^32
    (all of them up to [UINT_MAX] elements).  If that number is not zero
    and the allocation of as many pointers succeeds, then in every run in
    which each call returns, leaving the OCaml array and the new array as
    they are, [array_map] returns the new block; the calls were made on
    exactly these first elements, in their order, no other element was
    read, and the new block holds the pointers returned for them. *)
Theorem array_map_converts_first (s : state) (array : value)
    (vs : list value) (f : value → M mem ptr) (p : ptr) (m1 m' : mem)
    (calls : list (value * ptr)) :
  array_val (heap s) array vs →
  converted_length vs ≠ 0%nat →
  malloc (sizeof_ptr * Z.of_nat (converted_length vs)) (heap s) = Ret p m1 →
  p ≠ NULL →
  run_of_calls f array p (leaves_arrays array p) 0 m1 calls m' →
  length calls = converted_length vs →
  array_map array f s
    = Ret p (State m' (trace s ++ loop_events array p 0 calls))
  ∧ calls.*1 = take (converted_length vs) vs
  ∧ native m' !! p = Some (ptr_array_cells calls.*2).
Proof.
  intros [t Harr] Hk Hp Hnull Hrun Hcalls.
  destruct (converted_length_le vs) as (Hle & Hz & Hmax).
  rewrite (array_map_alloc_any f array t vs s Harr) by lia.
  fold (converted_length vs). rewrite <- Hz, Hp.
  rewrite (proj2 (Z.eqb_neq _ _) Hnull).
  destruct (malloc_ret _ _ _ _ Hp Hnull) as (_ & _ & Hm1).
  unfold bind. rewrite <- Hcalls in *.
  rewrite <- (Nat.add_0_r (length calls)) at 1.
  rewrite (array_map_loop_calls f array p _ 0 m1 calls m' Hrun) by lia.
  split; [reflexivity|].
  destruct (run_of_calls_values f array p 0 m1 calls m' Hrun t [] vs)
    as [_ [suffix Hvs]]; [reflexivity | |].
  { rewrite (block_at_managed (heap s)); [exact Harr | by subst m1]. }
  split.
  - rewrite Hvs. rewrite take_app_length'; [reflexivity|].
    by rewrite length_fmap.
  - rewrite (run_of_calls_cells f array p 0 m1 calls m' Hrun [] 0%nat);
      [by rewrite app_nil_r | reflexivity |].
    subst m1. simpl. rewrite lookup_insert_eq. do 2 f_equal.
    unfold sizeof_ptr. lia.
Qed.

Lemma array_map_converts_first_witness :
  array_val (heap (initial mem_huge_array)) 16 huge_array
  ∧ Z.of_nat (length huge_array) = 2 ^ 32 + 2
  ∧ converted_length huge_array = 2%nat
  ∧ run_of_calls static_name 16 4096 (leaves_arrays 16 4096) 0
      (set_native {[ 4096 := replicate 16 Undef ]}
         (set_malloc_script [] mem_huge_array))
      [(3, 1024); (5, 1040)]
      (set_native {[ 4096 := ptr_array_cells [1024; 1040] ]}
         (set_malloc_script [] mem_huge_array))
  ∧ array_map 16 static_name (initial mem_huge_array)
    = Ret 4096
        (State (set_native {[ 4096 := ptr_array_cells [1024; 1040] ]}
                  (set_malloc_script [] mem_huge_array))
           (trace (initial mem_huge_array)
            ++ loop_events 16 4096 0 [(3, 1024); (5, 1040)]))
  ∧ [(3, 1024); (5, 1040)].*1 = take (converted_length huge_array) huge_array.
Proof.
  assert (Harr : array_val (heap (initial mem_huge_array)) 16 huge_array)
    by (by exists 0).
  assert (Hk : converted_length huge_array ≠ 0%nat)
    by (rewrite converted_length_huge_array; discriminate).
  assert (Hp : malloc (sizeof_ptr * Z.of_nat (converted_length huge_array))
                 (heap (initial mem_huge_array))
               = Ret 4096 (set_native {[ 4096 := replicate 16 Undef ]}
                             (set_malloc_script [] mem_huge_array)))
    by (rewrite converted_length_huge_array; reflexivity).
  assert (Hnull : 4096 ≠ NULL) by discriminate.
  assert (Hrun : run_of_calls static_name 16 4096 (leaves_arrays 16 4096) 0
                   (set_native {[ 4096 := replicate 16 Undef ]}
                      (set_malloc_script [] mem_huge_array))
                   [(3, 1024); (5, 1040)]
                   (set_native {[ 4096 := ptr_array_cells [1024; 1040] ]}
                      (set_malloc_script [] mem_huge_array))).
  { eapply run_call; [reflexivity | reflexivity | by split | reflexivity |].
    eapply run_call; [reflexivity | reflexivity | by split | reflexivity |].
    apply run_done. }
  assert (Hcalls : length [(3, 1024); (5, 1040)] = converted_length huge_array)
    by (by rewrite converted_length_huge_array).
  split; [exact Harr|]. split; [exact length_huge_array|].
  split; [exact converted_length_huge_array|]. split; [exact Hrun|].
  destruct (array_map_converts_first (initial mem_huge_array) 16 huge_array
              static_name 4096 _ _ _ Harr Hk Hp Hnull Hrun Hcalls)
    as (H1 & H2 & _).
  split; [exact H1 | exact H2].
Defined.



(** ** [array_map] with [string_ocaml_to_c] *)

Lemma malloc_available size m p rest :
  malloc_script m = p :: rest →
  p ≠ NULL → native m !! p = None → managed m !! p = None →
  malloc size m
    = Ret p (set_native (<[p := replicate (Z.to_nat size) Undef]> (native m))
               (set_malloc_script rest m)).
Proof.
  intros Hs Hnull Hn Hm. unfold malloc. rewrite Hs.
  by rewrite bool_decide_eq_true_2.
Qed.

Lemma string_ocaml_to_c_available m v bs r rest :
  string_val m v bs →
  malloc_script m = r :: rest →
  r ≠ NULL → native m !! r = None → managed m !! r = None →
  string_ocaml_to_c v m
    = Ret r (set_native (<[r := c_copy bs]> (native m))
               (set_malloc_script rest m)).
Proof.
  intros [Hs Hlen] Hscript Hnull Hn Hm.
  rewrite (string_ocaml_to_c_eq _ _ _ Hs Hlen).
  rewrite (malloc_available _ _ _ _ Hscript Hnull Hn Hm).
  rewrite (proj2 (Z.eqb_neq _ _) Hnull), Hscript. reflexivity.
Qed.

Lemma string_val_managed m m' v bs :
  managed m' = managed m → string_val m v bs → string_val m' v bs.
Proof. intros H [Hs Hlen]. split; [|exact Hlen]. by rewrite (block_at_managed m). Qed.

(** The loop on an array of strings, with an allocator that has an
    address ready for each of the strings that remain. *)
Lemma array_map_loop_strings array t p rest :
  ∀ pre done s bss rs tl,
    block_at (heap s) array = Some (Fields t (pre ++ rest)) →
    length done = length pre →
    Z.of_nat (length (pre ++ rest)) ≤ UINT_MAX →
    Forall2 (string_val (heap s)) rest bss →
    malloc_script (heap s) = rs ++ tl →
    length rs = length rest →
    available (heap s) rs →
    native (heap s) !! p
      = Some (ptr_array_cells done ++ replicate (8 * length rest) Undef) →
    ∃ s',
      array_map_loop string_ocaml_to_c array p (length rest)
        (Z.of_nat (length pre)) s = Ret tt s'
      ∧ native (heap s') !! p = Some (ptr_array_cells (done ++ rs))
      ∧ Forall2 (λ r bs, native (heap s') !! r = Some (c_copy bs)) rs bss
      ∧ malloc_script (heap s') = tl
      ∧ managed (heap s') = managed (heap s)
      ∧ (∀ a cs, a ≠ p → a ∉ rs →
           native (heap s) !! a = Some cs → native (heap s') !! a = Some cs)
      ∧ trace s'
        = trace s ++ loop_events array p (Z.of_nat (length pre)) (zip rest rs).
Proof.
  induction rest as [|v rest IH];
    intros pre done s bss rs tl Harr Hlen Hmax Hstr Hscript Hrs Hav Hp.
  - destruct rs; [|discriminate]. apply Forall2_nil_inv_l in Hstr as ->.
    exists s. simpl in *. rewrite !app_nil_r in *.
    repeat split; auto.
  - destruct rs as [|r rs]; [discriminate|]. injection Hrs as Hrs.
    apply Forall2_cons_inv_l in Hstr as (bs & bss' & Hv & Hstr & ->).
    destruct Hav as [Hnodup Hfree].
    apply NoDup_cons in Hnodup as [Hr Hnodup].
    apply Forall_cons in Hfree as [(Hnull & Hrn & Hrm) Hfree].
    assert (Hrp : r ≠ p) by congruence.
    assert (Hfield : field_at (heap s) array (Z.of_nat (length pre)) = Some v).
    { unfold field_at. rewrite Harr, (proj2 (Z.leb_le _ _)) by lia.
      rewrite Nat2Z.id. by apply list_lookup_middle. }
    pose proof (string_ocaml_to_c_available _ _ _ _ _ Hv Hscript Hnull Hrn Hrm)
      as Hcall.
    match type of Hcall with _ = Ret _ ?m => set (m1 := m) in * end.
    assert (Hp1 : native m1 !! p
                  = Some (ptr_array_cells done
                          ++ replicate (8 * S (length rest)) Undef)).
    { subst m1. simpl. by rewrite lookup_insert_ne. }
    pose proof (store_ptr_next m1 p done r (length rest) Hp1) as Hst.
    rewrite Hlen in Hst.
    change (length (v :: rest)) with (S (length rest)).
    rewrite (array_map_loop_step _ _ _ _ _ _ _ _ _ _ Hfield Hcall Hst).
    rewrite length_app in Hmax. simpl in Hmax.
    rewrite to_uint_id by lia.
    replace (Z.of_nat (length pre) + 1) with (Z.of_nat (length (pre ++ [v])))
      by (rewrite length_app; simpl; lia).
    match goal with
    | |- context [array_map_loop _ _ _ _ _ ?st] => set (s2 := st)
    end.
    assert (Hman2 : managed (heap s2) = managed (heap s)) by reflexivity.
    assert (Hnat2 : ∀ a, a ≠ p → a ≠ r →
                      native (heap s2) !! a = native (heap s) !! a).
    { intros a Hap Har. subst s2 m1. simpl.
      rewrite lookup_insert_ne by congruence.
      by rewrite lookup_insert_ne by congruence. }
    destruct (IH (pre ++ [v]) (done ++ [r]) s2 bss' rs tl)
      as (s' & Hrun & Hcells & Hcopies & Hscript' & Hman' & Hkeep & Htrace).
    + rewrite (block_at_managed (heap s) (heap s2)) by exact Hman2.
      rewrite <- app_assoc. exact Harr.
    + rewrite !length_app, Hlen. reflexivity.
    + rewrite <- app_assoc, length_app. simpl. lia.
    + eapply Forall2_impl; [exact Hstr|]. intros x y.
      by apply string_val_managed.
    + reflexivity.
    + exact Hrs.
    + split; [exact Hnodup|]. apply Forall_forall. intros a Ha.
      pose proof (proj1 (Forall_forall _ _) Hfree a Ha) as (Han & Hann & Hanm).
      split; [exact Han|]. split; [|by rewrite Hman2].
      rewrite Hnat2; [exact Hann | congruence |]. intros ->. done.
    + simpl. apply lookup_insert_eq.
    + exists s'. rewrite Hrun.
      rewrite <- (app_assoc done [r] rs) in Hcells.
      split; [reflexivity|]. split; [exact Hcells|]. split; [|split; [exact Hscript'|]].
      * constructor; [|exact Hcopies].
        apply Hkeep; [exact Hrp | exact Hr |].
        subst s2 m1. simpl. rewrite lookup_insert_ne by congruence.
        apply lookup_insert_eq.
      * split; [by rewrite Hman'|]. split.
        -- intros a cs Hap Har Ha. apply not_elem_of_cons in Har as [Har Hars].
           apply Hkeep; [exact Hap | exact Hars |]. by rewrite Hnat2.
        -- rewrite Htrace. subst s2. cbn [trace]. rewrite <- app_assoc.
           replace (Z.of_nat (length (pre ++ [v])))
             with (Z.of_nat (length pre) + 1)
             by (rewrite length_app; simpl; lia).
           reflexivity.
Qed.

(** X11.  [array_map] with [string_ocaml_to_c], on an array of n strings,
    0 < n <= UINT_MAX, each shorter than [INT_MAX] bytes, with an
    allocator that has n + 1 distinct free addresses ready: it returns the
    first address, where the new array holds the n others in their order,
    and at the i-th of them is a copy of the i-th string, its bytes
    followed by a null byte.  The allocator has handed out exactly these
    n + 1 addresses and the OCaml heap is as before. *)
Theorem array_map_string_ocaml_to_c (s : state) (array : value)
    (vs : list value) (bss : list (list byte)) (p : ptr) (rs tl : list ptr) :
  array_val (heap s) array vs →
  0 < Z.of_nat (length vs) ≤ UINT_MAX →
  Forall2 (string_val (heap s)) vs bss →
  malloc_script (heap s) = p :: rs ++ tl →
  length rs = length vs →
  available (heap s) (p :: rs) →
  ∃ s',
    array_map array string_ocaml_to_c s = Ret p s'
    ∧ native (heap s') !! p = Some (ptr_array_cells rs)
    ∧ Forall2 (λ r bs, native (heap s') !! r = Some (c_copy bs)) rs bss
    ∧ malloc_script (heap s') = tl
    ∧ managed (heap s') = managed (heap s)
    ∧ trace s' = trace s ++ loop_events array p 0 (zip vs rs).
Proof.
  intros [t Harr] Hlen Hstr Hscript Hrs [Hnodup Hfree].
  apply NoDup_cons in Hnodup as [Hp Hnodup].
  apply Forall_cons in Hfree as [(Hnull & Hpn & Hpm) Hfree].
  rewrite (array_map_alloc string_ocaml_to_c array t vs s Harr Hlen).
  rewrite (malloc_available _ _ _ _ Hscript Hnull Hpn Hpm).
  rewrite (proj2 (Z.eqb_neq _ _) Hnull).
  match goal with |- context [State ?m (trace s)] => set (m1 := m) end.
  destruct (array_map_loop_strings array t p vs [] [] (State m1 (trace s))
              bss rs tl)
    as (s' & Hrun & Hcells & Hcopies & Hscript' & Hman' & _ & Htrace).
  - exact Harr.
  - reflexivity.
  - simpl. lia.
  - exact Hstr.
  - reflexivity.
  - exact Hrs.
  - split; [exact Hnodup|]. apply Forall_forall. intros a Ha.
    pose proof (proj1 (Forall_forall _ _) Hfree a Ha) as (Han & Hann & Hanm).
    split; [exact Han|]. split; [|exact Hanm].
    subst m1. simpl. rewrite lookup_insert_ne; [exact Hann|].
    intros ->. done.
  - subst m1. simpl. rewrite lookup_insert_eq. do 2 f_equal.
    unfold sizeof_ptr. lia.
  - exists s'. unfold bind. change (Z.of_nat (length [])) with 0 in *.
    rewrite Hrun. simpl in *. by repeat split.
Qed.

Lemma array_map_string_ocaml_to_c_witness :
  array_val (heap (initial mem_string_array)) 16 [32; 48]
  ∧ 0 < Z.of_nat (length [32; 48]) ≤ UINT_MAX
  ∧ Forall2 (string_val (heap (initial mem_string_array))) [32; 48]
      [[x68; x69]; [x68; x6f]]
  ∧ malloc_script (heap (initial mem_string_array))
    = 4096 :: [8192; 12288] ++ []
  ∧ available (heap (initial mem_string_array)) (4096 :: [8192; 12288])
  ∧ ∃ s',
      array_map 16 string_ocaml_to_c (initial mem_string_array) = Ret 4096 s'
      ∧ native (heap s') !! 4096 = Some (ptr_array_cells [8192; 12288])
      ∧ Forall2 (λ r bs, native (heap s') !! r = Some (c_copy bs))
          [8192; 12288] [[x68; x69]; [x68; x6f]]
      ∧ malloc_script (heap s') = []
      ∧ managed (heap s') = managed (heap (initial mem_string_array))
      ∧ trace s' = trace (initial mem_string_array)
                   ++ loop_events 16 4096 0 (zip [32; 48] [8192; 12288]).
Proof.
  assert (Harr : array_val (heap (initial mem_string_array)) 16 [32; 48])
    by (by exists 0).
  assert (Hlen : 0 < Z.of_nat (length [32; 48]) ≤ UINT_MAX) by (by vm_compute).
  assert (Hstr : Forall2 (string_val (heap (initial mem_string_array)))
                   [32; 48] [[x68; x69]; [x68; x6f]])
    by (repeat constructor).
  assert (Hav : available (heap (initial mem_string_array))
                  (4096 :: [8192; 12288])).
  { split.
    - apply (bool_decide_unpack _). by vm_compute.
    - repeat constructor; discriminate. }
  split; [exact Harr|]. split; [exact Hlen|]. split; [exact Hstr|].
  split; [reflexivity|]. split; [exact Hav|].
  exact (array_map_string_ocaml_to_c (initial mem_string_array) 16 [32; 48]
           [[x68; x69]; [x68; x6f]] 4096 [8192; 12288] [] Harr Hlen Hstr
           eq_refl eq_refl Hav).
Defined.
